(** * Maze search (Lecture_1/practice_project/maze.py)

    A shallow embedding of the maze program: the [Node] record, the two
    frontier classes, the [Maze] constructor, [neighbors] and the search
    loop of [solve], followed by the properties of the search engine. *)

From Stdlib Require Import ZArith Lia ssreflect.
From stdpp Require Import base numbers list strings pretty gmap sets fin_sets.

Set Warnings "-rewrite-rw,-clear-no-such-hyp".
Open Scope Z_scope.

(** ** Exceptions *)

(** The program raises the builtin [Exception] with a message; indexing a
    list out of range raises [IndexError] and reading an attribute that was
    never assigned raises [AttributeError]. *)
Inductive Exn :=
| Exception (msg : string)
| IndexError
| AttributeError.

(** [raise Exception("empty frontier")], lines 67 and 87. *)
Definition EmptyFrontier : Exn := Exception "empty frontier".
(** [raise Exception("no solution")], line 237. *)
Definition NoSolution : Exn := Exception "no solution".
(** The two failures of the constructor, lines 121 and 123. *)
Definition MalformedGrid (e : Exn) : Prop :=
  e = Exception "maze must have exactly one start point" ∨
  e = Exception "maze must have exactly one goal".

Inductive Result (A : Type) :=
| Ok (a : A)
| Raise (e : Exn).
Arguments Ok {A} a.
Arguments Raise {A} e.

(** Exceptions propagate: [x ← r; k] runs [k] when [r] returned. *)
#[export] Instance Result_bind : MBind Result := λ A B f r,
  match r with
  | Ok a => f a
  | Raise e => Raise e
  end.

(** ** Cells and nodes *)

(** A state is a [(row, col)] tuple of Python integers. *)
Definition cell : Type := Z * Z.

(** [class Node]: [parent] and [action] are [None] for the root. *)
#[warnings="-register-all"]
Inductive Node := mkNode {
  state : cell;
  parent : option Node;
  action : option string
}.

(** ** Frontiers *)

(** [self.frontier] is a Python list of nodes; the class of the object
    decides which [remove] runs. *)
Inductive FrontierClass := StackFrontier | QueueFrontier.

Module Frontier.

(** [self.frontier.append(node)] *)
Definition add (fr : list Node) (node : Node) : list Node := fr ++ [node].

(** [any(node.state == state for node in self.frontier)] *)
Definition contains_state (fr : list Node) (st : cell) : bool :=
  existsb (λ node, bool_decide (state node = st)) fr.

(** [len(self.frontier) == 0] *)
Definition empty (fr : list Node) : bool := bool_decide (length fr = 0%nat).

(** [StackFrontier.remove]: [self.frontier.pop()] takes the last element.
    [QueueFrontier.remove]: [self.frontier[0]], then [self.frontier[1:]].
    The result is the node and the list left in the frontier. *)
Definition remove (k : FrontierClass) (fr : list Node)
  : Result (Node * list Node) :=
  if empty fr then Raise EmptyFrontier
  else match k with
       | StackFrontier =>
           match last fr with
           | Some node => Ok (node, take (length fr - 1) fr)
           | None => Raise IndexError
           end
       | QueueFrontier =>
           match fr !! 0%nat with
           | Some node => Ok (node, drop 1 fr)
           | None => Raise IndexError
           end
       end.

End Frontier.

(** ** The maze *)

(** The attributes assigned by [Maze.__init__]. [start] and [goal] are
    assigned inside the loop over the [height] x [width] window only, so
    an object can lack them: [None] is the unassigned attribute. *)
Record Maze := {
  height : Z;
  width : Z;
  walls : list (list bool);
  start : option cell;
  goal : option cell
}.

(** A Python [str] as its sequence of code points. *)
Definition str : Type := list N.

Definition chr_A : N := 65.
Definition chr_B : N := 66.
Definition chr_space : N := 32.

(** [contents.count(c)] for a one-character [c]. *)
Definition count (c : N) (s : str) : nat :=
  length (filter (λ x, x = c) s).

(** The line boundaries of [str.splitlines]: LF, VT, FF, CR (and the pair
    CR LF as one boundary), FS, GS, RS, NEL, LS, PS. *)
Definition is_linebreak (c : N) : bool :=
  bool_decide (c ∈ [10; 11; 12; 13; 28; 29; 30; 133; 8232; 8233]%N).

(** [str.splitlines()]: [cur] is the line being read, last character
    first. A boundary closes the line, also an empty one; the end of the
    string closes a line only when it is not empty. *)
Fixpoint splitlines_from (cur : str) (s : str) : list str :=
  match s with
  | [] => match cur with [] => [] | _ => [reverse cur] end
  | c :: s' =>
      if is_linebreak c then
        reverse cur ::
          match s' with
          | c' :: s'' =>
              if bool_decide (c = 13%N) && bool_decide (c' = 10%N)
              then splitlines_from [] s''
              else splitlines_from [] s'
          | [] => []
          end
      else splitlines_from (c :: cur) s'
  end.

Definition splitlines (s : str) : list str := splitlines_from [] s.

(** What one character of the source makes of its cell: [True] is a wall
    (lines 136-145). *)
Definition char_is_wall (ch : N) : bool :=
  if bool_decide (ch = chr_A) then false
  else if bool_decide (ch = chr_B) then false
  else if bool_decide (ch = chr_space) then false
  else true.

(** The entry the loop records for row [i], column [j]: open where the
    source row has no character. *)
Definition cell_wall (lines : list str) (i j : nat) : bool :=
  match lines !! i ≫= (.!! j) with
  | Some ch => char_is_wall ch
  | None => false
  end.

(** The body of the loop over [j] (lines 135-148). The accumulator is
    [self.start], [self.goal] and the [row] under construction; a read
    [contents[i][j]] out of range is the [except IndexError] branch. *)
Definition init_cell (lines : list str) (i j : nat)
    (acc : option cell * option cell * list bool)
  : option cell * option cell * list bool :=
  let '(st, gl, row) := acc in
  match lines !! i ≫= (.!! j) with
  | Some ch =>
      if bool_decide (ch = chr_A)
      then (Some (Z.of_nat i, Z.of_nat j), gl, row ++ [false])
      else if bool_decide (ch = chr_B)
      then (st, Some (Z.of_nat i, Z.of_nat j), row ++ [false])
      else if bool_decide (ch = chr_space)
      then (st, gl, row ++ [false])
      else (st, gl, row ++ [true])
  | None => (st, gl, row ++ [false])
  end.

(** The body of the loop over [i] (lines 133-149). *)
Definition init_row (lines : list str) (w : nat) (i : nat)
    (acc : option cell * option cell * list (list bool))
  : option cell * option cell * list (list bool) :=
  let '(st, gl, ws) := acc in
  let '(st', gl', row) :=
    foldl (λ a j, init_cell lines i j a) (st, gl, []) (seq 0 w) in
  (st', gl', ws ++ [row]).

(** [Maze.__init__], from the text read from the file. *)
Definition Maze_init (contents : str) : Result Maze :=
  if bool_decide (count chr_A contents ≠ 1%nat)
  then Raise (Exception "maze must have exactly one start point")
  else if bool_decide (count chr_B contents ≠ 1%nat)
  then Raise (Exception "maze must have exactly one goal")
  else
    let lines := splitlines contents in
    let h := length lines in
    match lines !! 0%nat with
    | None => Raise IndexError
    | Some line0 =>
        let w := length line0 in
        let '(st, gl, ws) :=
          foldl (λ a i, init_row lines w i a) (None, None, []) (seq 0 h) in
        Ok {| height := Z.of_nat h; width := Z.of_nat w; walls := ws;
              start := st; goal := gl |}
    end.

(** ** neighbors *)

Definition candidates (st : cell) : list (string * cell) :=
  let '(row, col) := st in
  [("up"%string, (row - 1, col));
   ("down"%string, (row + 1, col));
   ("left"%string, (row, col - 1));
   ("right"%string, (row, col + 1))].

(** [0 <= r < self.height and 0 <= c < self.width] *)
Definition in_bounds (m : Maze) (c : cell) : bool :=
  bool_decide (0 ≤ c.1 < height m) && bool_decide (0 ≤ c.2 < width m).

(** [self.walls[r][c]] for non-negative [r] and [c]. *)
Definition wall_at (m : Maze) (c : cell) : Result bool :=
  match walls m !! Z.to_nat c.1 with
  | Some row =>
      match row !! Z.to_nat c.2 with
      | Some b => Ok b
      | None => Raise IndexError
      end
  | None => Raise IndexError
  end.

(** The loop of lines 210-212; [and] reads the table only in bounds. *)
Fixpoint neighbors_loop (m : Maze) (cands : list (string * cell))
    (result : list (string * cell)) : Result (list (string * cell)) :=
  match cands with
  | [] => Ok result
  | (action, c) :: cands' =>
      if in_bounds m c then
        b ← wall_at m c;
        if negb b then neighbors_loop m cands' (result ++ [(action, c)])
        else neighbors_loop m cands' result
      else neighbors_loop m cands' result
  end.

Definition neighbors (m : Maze) (st : cell) : Result (list (string * cell)) :=
  neighbors_loop m (candidates st) [].

(** ** solve *)

(** [self.solution]: the actions and the cells. *)
Definition Solution : Type := list (option string) * list cell.

(** Lines 245-255: walk the parent chain from the goal node, appending, then
    reverse both lists. *)
Fixpoint trace_back (node : Node) (actions : list (option string))
    (cells : list cell) : list (option string) * list cell :=
  match node with
  | mkNode st (Some p) a => trace_back p (actions ++ [a]) (cells ++ [st])
  | mkNode _ None _ => (actions, cells)
  end.

Definition solution_of (node : Node) : Solution :=
  let '(actions, cells) := trace_back node [] [] in
  (reverse actions, reverse cells).

(** The variables of the loop: the local [frontier] and the attributes
    [self.explored] and [self.num_explored]. *)
Record SearchState := {
  frontier : list Node;
  explored : gset cell;
  num_explored : nat
}.

(** Lines 262-265, one neighbor. *)
Definition expand_one (node : Node) (ex : gset cell) (fr : list Node)
    (n : string * cell) : list Node :=
  let '(action, st) := n in
  if negb (Frontier.contains_state fr st) && bool_decide (st ∉ ex)
  then Frontier.add fr (mkNode st (Some node) (Some action))
  else fr.

Definition expand (node : Node) (ex : gset cell) (fr : list Node)
    (ns : list (string * cell)) : list Node :=
  foldl (expand_one node ex) fr ns.

(** How one pass through the body of [while True] ends. *)
Inductive Step :=
| Continue (st : SearchState)
| Returned (sol : Solution) (st : SearchState)
| Raised (e : Exn) (st : SearchState).

(** Lines 235-265 for a frontier object of class [k]. *)
Definition step (k : FrontierClass) (m : Maze) (st : SearchState) : Step :=
  if Frontier.empty (frontier st) then Raised NoSolution st
  else
    match Frontier.remove k (frontier st) with
    | Raise e => Raised e st
    | Ok (node, fr) =>
        let n := S (num_explored st) in
        match goal m with
        | None =>
            Raised AttributeError
              {| frontier := fr; explored := explored st; num_explored := n |}
        | Some g =>
            if bool_decide (state node = g) then
              Returned (solution_of node)
                {| frontier := fr; explored := explored st; num_explored := n |}
            else
              let ex := {[state node]} ∪ explored st in
              match neighbors m (state node) with
              | Raise e =>
                  Raised e {| frontier := fr; explored := ex; num_explored := n |}
              | Ok ns =>
                  Continue {| frontier := expand node ex fr ns;
                              explored := ex; num_explored := n |}
              end
        end
    end.

(** How a call of [solve] ends: it returns with [self.solution] assigned,
    or an exception leaves it. Both keep the diagnostics. *)
Inductive Run :=
| Solved (sol : Solution) (st : SearchState)
| Failed (e : Exn) (st : SearchState).

(** [while True], at most [fuel] passes; [None] is a loop still running. *)
Fixpoint loop (k : FrontierClass) (m : Maze) (fuel : nat) (st : SearchState)
  : option Run :=
  match fuel with
  | O => None
  | S fuel' =>
      match step k m st with
      | Continue st' => loop k m fuel' st'
      | Returned sol st' => Some (Solved sol st')
      | Raised e st' => Some (Failed e st')
      end
  end.

(** Lines 223-231 with the start [s]: the root node in a fresh frontier,
    nothing explored. *)
Definition initial (s : cell) : SearchState :=
  {| frontier := Frontier.add [] (mkNode s None None);
     explored := ∅; num_explored := 0 |}.

(** Without a [start] attribute line 226 raises; the explored set, not
    yet assigned there, is shown empty. *)
Definition solve_init (m : Maze) : Result SearchState :=
  match start m with
  | None => Raise AttributeError
  | Some s => Ok (initial s)
  end.

Definition no_state : SearchState :=
  {| frontier := []; explored := ∅; num_explored := 0 |}.

(** The search of [solve] with a frontier of class [k]. *)
Definition solve_with (k : FrontierClass) (fuel : nat) (m : Maze)
  : option Run :=
  match solve_init m with
  | Raise e => Some (Failed e no_state)
  | Ok st => loop k m fuel st
  end.

(** [Maze.solve]: line 227 creates a [StackFrontier]. *)
Definition solve (fuel : nat) (m : Maze) : option Run :=
  solve_with StackFrontier fuel m.

(** Passes that always suffice: one per cell, the start and the last. *)
Definition enough (m : Maze) : nat :=
  (Z.to_nat (height m) * Z.to_nat (width m) + 2)%nat.

(** ** The notions the properties are stated with *)

(** The obstacle table has [height] rows of [width] entries. *)
Definition table (m : Maze) : Prop :=
  length (walls m) = Z.to_nat (height m) ∧
  Forall (λ row, length row = Z.to_nat (width m)) (walls m).

(** A cell within [[0, height) x [0, width)] that is not an obstacle. *)
Definition open_cell (m : Maze) (c : cell) : Prop :=
  (0 ≤ c.1 < height m) ∧ (0 ≤ c.2 < width m) ∧
  walls m !! Z.to_nat c.1 ≫= (.!! Z.to_nat c.2) = Some false.

#[export] Instance open_cell_dec m c : Decision (open_cell m c).
Proof. unfold open_cell. apply _. Defined.

(** The grid of the data model: positive dimensions, a full obstacle
    table, and distinct open cells as start [s] and goal [g]. *)
Record Grid (m : Maze) (s g : cell) : Prop := {
  grid_height : 0 < height m;
  grid_width : 0 < width m;
  grid_table : table m;
  grid_start : start m = Some s;
  grid_goal : goal m = Some g;
  grid_start_open : open_cell m s;
  grid_goal_open : open_cell m g;
  grid_distinct : s ≠ g
}.

(** [neighbors(a)] offers the move [act] to [b]. *)
Definition move (m : Maze) (act : string) (a b : cell) : Prop :=
  ∃ ns, neighbors m a = Ok ns ∧ (act, b) ∈ ns.

(** [cells] continues a walk from [a], one move per cell. *)
Fixpoint walk (m : Maze) (a : cell) (cells : list cell) : Prop :=
  match cells with
  | [] => True
  | c :: cs => (∃ act, move m act a c) ∧ walk m c cs
  end.

(** The same with the action of every move. *)
Fixpoint labelled (m : Maze) (a : cell) (actions : list (option string))
    (cells : list cell) : Prop :=
  match actions, cells with
  | [], [] => True
  | Some act :: actions', c :: cs => move m act a c ∧ labelled m c actions' cs
  | _, _ => False
  end.

(** Where a walk from [a] ends. *)
Definition walk_end (a : cell) (cells : list cell) : cell :=
  default a (last cells).

Definition reachable (m : Maze) (a b : cell) : Prop :=
  ∃ cells, walk m a cells ∧ walk_end a cells = b.

(** [n] is the least number of moves of a walk from [a] to [b]. *)
Definition min_moves (m : Maze) (a b : cell) (n : nat) : Prop :=
  (∃ cells, walk m a cells ∧ walk_end a cells = b ∧ length cells = n) ∧
  ∀ cells, walk m a cells → walk_end a cells = b → (n ≤ length cells)%nat.

(** The state after [n] passes of the loop that all went on. *)
Fixpoint iter (k : FrontierClass) (m : Maze) (n : nat) (st : SearchState)
  : option SearchState :=
  match n with
  | O => Some st
  | S n' =>
      match step k m st with
      | Continue st' => iter k m n' st'
      | _ => None
      end
  end.

(** The node line 240 takes from the frontier in state [st]. *)
Definition removed_at (k : FrontierClass) (st : SearchState) : option Node :=
  match Frontier.remove k (frontier st) with
  | Ok (node, _) => Some node
  | Raise _ => None
  end.

(** The nodes lines 262-265 add in the pass from [st]: what the new
    frontier holds beyond the nodes left after the removal. *)
Definition added_at (k : FrontierClass) (m : Maze) (st : SearchState)
  : list Node :=
  match Frontier.remove k (frontier st), step k m st with
  | Ok (_, fr), Continue st' => drop (length fr) (frontier st')
  | _, _ => []
  end.

(** The nodes removed, and the nodes added, in the first [n] passes. *)
Fixpoint removals (k : FrontierClass) (m : Maze) (n : nat) (st : SearchState)
  : list Node :=
  match n with
  | O => []
  | S n' =>
      match removed_at k st with
      | None => []
      | Some node =>
          node :: match step k m st with
                  | Continue st' => removals k m n' st'
                  | _ => []
                  end
      end
  end.

Fixpoint additions (k : FrontierClass) (m : Maze) (n : nat) (st : SearchState)
  : list Node :=
  match n with
  | O => []
  | S n' =>
      match step k m st with
      | Continue st' => added_at k m st ++ additions k m n' st'
      | _ => []
      end
  end.

(** The states held by a list of nodes. *)
Definition states (ns : list Node) : list cell := state <$> ns.

(** The number of parent links above a node. *)
Fixpoint depth (node : Node) : nat :=
  match node with
  | mkNode _ (Some p) _ => S (depth p)
  | mkNode _ None _ => O
  end.

(** The actions and cells along the parent chain, root first. *)
Fixpoint node_actions (node : Node) : list (option string) :=
  match node with
  | mkNode _ (Some p) a => node_actions p ++ [a]
  | mkNode _ None _ => []
  end.

Fixpoint node_cells (node : Node) : list cell :=
  match node with
  | mkNode st (Some p) _ => node_cells p ++ [st]
  | mkNode _ None _ => []
  end.

(** Every parent link of [node] is a move of the maze and the root holds
    the cell [s]. *)
Fixpoint linked (m : Maze) (s : cell) (node : Node) : Prop :=
  match node with
  | mkNode st (Some p) a =>
      linked m s p ∧ ∃ act, a = Some act ∧ move m act (state p) st
  | mkNode st None _ => st = s
  end.

(** A state is seen once it is explored or waits in the frontier. *)
Definition seen (st : SearchState) (c : cell) : Prop :=
  c ∈ explored st ∨ c ∈ states (frontier st).

(** The cells of the window, row by row. *)
Definition grid_cells (m : Maze) : list cell :=
  r ← seqZ 0 (height m); c ← seqZ 0 (width m); [(r, c)].

(** What every pass of the loop keeps true, for either frontier class;
    [s] is the start and [g] the goal. *)
Record Inv (m : Maze) (s g : cell) (st : SearchState) : Prop := {
  inv_linked : ∀ n, n ∈ frontier st → linked m s n;
  inv_nodup : NoDup (states (frontier st));
  inv_fresh : ∀ c, c ∈ states (frontier st) → c ∉ explored st;
  inv_closed : ∀ e act c, e ∈ explored st → move m act e c → seen st c;
  inv_start : seen st s;
  inv_goal : g ∉ explored st;
  inv_count : num_explored st = size (explored st);
  inv_reach : ∀ e, e ∈ explored st → reachable m s e;
  inv_world : ∀ c, seen st c → c = s ∨ open_cell m c
}.

(** What the queue keeps true in addition: no walk to the state of a
    waiting node is shorter than its parent chain, and the frontier holds
    the nodes of one depth followed by those one deeper. *)
Record InvQ (m : Maze) (s : cell) (st : SearchState) : Prop := {
  invq_short : ∀ n cells,
    n ∈ frontier st → walk m s cells → walk_end s cells = state n →
    (depth n ≤ length cells)%nat;
  invq_layers : ∃ d l1 l2,
    frontier st = l1 ++ l2 ∧
    (∀ n, n ∈ l1 → depth n = d) ∧ (∀ n, n ∈ l2 → depth n = S d)
}.

(** ** A fixture *)

Definition str_of (s : string) : str :=
  (λ a, Ascii.N_of_ascii a) <$> String.list_ascii_of_string s.

(** A 3 x 3 ring around one wall, the goal two cells below the start. *)
Definition ring_text : str := str_of "A  
 # 
B  "%string.

Definition ring : Maze :=
  {| height := 3; width := 3;
     walls := [[false; false; false]; [false; true; false];
               [false; false; false]];
     start := Some (0, 0); goal := Some (2, 0) |}.

(** One row, a wall between start and goal. *)
Definition blocked_text : str := str_of "A#B"%string.

Definition blocked : Maze :=
  {| height := 1; width := 3; walls := [[false; true; false]];
     start := Some (0, 0); goal := Some (0, 2) |}.

(** A second row of one character under a first row of three. *)
Definition short_text : str := str_of "A B
#"%string.


(** A first row of one character: the window is one column wide and the
    "B" of the second row lies outside it. *)
Definition clipped_text : str := str_of "#
A B"%string.

Definition clipped : Maze :=
  {| height := 2; width := 1; walls := [[true]; [false]];
     start := Some (1, 0); goal := None |}.

(** ** Further notions *)

(** The states of the proper ancestors of a node, root first. *)
Fixpoint ancestors (node : Node) : list cell :=
  match node with
  | mkNode _ (Some p) _ => ancestors p ++ [state p]
  | mkNode _ None _ => []
  end.

(** What the loop keeps true of the parent chains: the ancestors of a
    waiting node are explored, each once. *)
Definition InvA (st : SearchState) : Prop :=
  ∀ n, n ∈ frontier st →
    NoDup (ancestors n) ∧ ∀ c, c ∈ ancestors n → c ∈ explored st.

(** The diagnostics a run leaves behind. *)
Definition run_state (r : Run) : SearchState :=
  match r with
  | Solved _ st => st
  | Failed _ st => st
  end.

(** ** print *)

Definition chr_block : N := 9608.
Definition chr_star : N := 42.
Definition chr_newline : N := 10.

(** Reading [self.start] or [self.goal]. *)
Definition attribute (a : option cell) : Result cell :=
  match a with
  | Some c => Ok c
  | None => Raise AttributeError
  end.

(** Lines 174-183: the character for the entry [col] of row [i], column
    [j]; [solution] is the list of cells of [self.solution], if any. The
    attributes are read only when the tests before them fail. *)
Definition print_cell (m : Maze) (solution : option (list cell))
    (i j : nat) (col : bool) : Result N :=
  if col then Ok chr_block
  else
    s ← attribute (start m);
    if bool_decide ((Z.of_nat i, Z.of_nat j) = s) then Ok chr_A
    else
      g ← attribute (goal m);
      if bool_decide ((Z.of_nat i, Z.of_nat j) = g) then Ok chr_B
      else
        match solution with
        | Some cells =>
            if bool_decide ((Z.of_nat i, Z.of_nat j) ∈ cells)
            then Ok chr_star else Ok chr_space
        | None => Ok chr_space
        end.

(** What [print] leaves behind: the text written to the standard output
    and the exception that interrupted it, if any. *)
Definition Printed : Type := str * option Exn.

(** The loop over [enumerate(row)], lines 173-183; [out] is the text
    written so far. *)
Fixpoint print_row (m : Maze) (solution : option (list cell)) (i j : nat)
    (row : list bool) (out : str) : Printed :=
  match row with
  | [] => (out, None)
  | col :: row' =>
      match print_cell m solution i j col with
      | Ok ch => print_row m solution i (S j) row' (out ++ [ch])
      | Raise e => (out, Some e)
      end
  end.

(** The loop over [enumerate(self.walls)], lines 172-184. *)
Fixpoint print_rows (m : Maze) (solution : option (list cell)) (i : nat)
    (rows : list (list bool)) (out : str) : Printed :=
  match rows with
  | [] => (out, None)
  | row :: rows' =>
      match print_row m solution i 0 row out with
      | (out', None) =>
          print_rows m solution (S i) rows' (out' ++ [chr_newline])
      | (out', Some e) => (out', Some e)
      end
  end.

(** [Maze.print], with the value [sol] of [self.solution]. *)
Definition Maze_print (m : Maze) (sol : option Solution) : Printed :=
  let solution := match sol with Some s => Some s.2 | None => None end in
  match print_rows m solution 0 (walls m) [chr_newline] with
  | (out, None) => (out ++ [chr_newline], None)
  | (out, Some e) => (out, Some e)
  end.

(** [solution is not None and (i, j) in solution] *)
Definition on_path (solution : option (list cell)) (c : cell) : bool :=
  match solution with
  | Some cells => bool_decide (c ∈ cells)
  | None => false
  end.

(** The character of a cell when start [s] and goal [g] are assigned. *)
Definition char_of (s g : cell) (solution : option (list cell))
    (i j : nat) (col : bool) : N :=
  if col then chr_block
  else if bool_decide ((Z.of_nat i, Z.of_nat j) = s) then chr_A
  else if bool_decide ((Z.of_nat i, Z.of_nat j) = g) then chr_B
  else if on_path solution (Z.of_nat i, Z.of_nat j) then chr_star
  else chr_space.

(** The rows of the picture, one string per row of the table. *)
Definition picture_rows (m : Maze) (s g : cell)
    (solution : option (list cell)) : list str :=
  imap (λ i row, imap (char_of s g solution i) row) (walls m).

(** Rows written one after the other, each closed by a newline. *)
Definition unlines (rows : list str) : str :=
  rows ≫= λ r, r ++ [chr_newline].

(** The entry [col] at row [i], column [j] makes [print] read an
    attribute that was never assigned. *)
Definition unprintable (m : Maze) (i j : nat) (col : bool) : Prop :=
  col = false ∧
  (start m = None ∨
   (start m ≠ Some (Z.of_nat i, Z.of_nat j) ∧ goal m = None)).

(** ** output_image *)

(** An RGB fill and the corners of a rectangle, as they are passed to
    [draw.rectangle]. *)
Definition Color : Type := Z * Z * Z.

Record Rect := {
  x0 : Z;
  y0 : Z;
  x1 : Z;
  y1 : Z
}.

Definition cell_size : Z := 50.
Definition cell_border : Z := 2.

Definition wall_fill : Color := (40, 40, 40).
Definition start_fill : Color := (255, 0, 0).
Definition goal_fill : Color := (0, 171, 28).
Definition solution_fill : Color := (220, 235, 113).
Definition explored_fill : Color := (212, 97, 85).
Definition open_fill : Color := (237, 240, 252).

(** Lines 295-306: the fill of the entry [col] of row [i], column [j].
    [explored] is the attribute [self.explored], unassigned before the
    first [solve]; [and] reads it only after its two other tests. *)
Definition fill_of (m : Maze) (solution : option (list cell))
    (explored : option (gset cell)) (show_solution show_explored : bool)
    (i j : nat) (col : bool) : Result Color :=
  if col then Ok wall_fill
  else
    s ← attribute (start m);
    if bool_decide ((Z.of_nat i, Z.of_nat j) = s) then Ok start_fill
    else
      g ← attribute (goal m);
      if bool_decide ((Z.of_nat i, Z.of_nat j) = g) then Ok goal_fill
      else
        match solution with
        | None => Ok open_fill
        | Some cells =>
            if show_solution && bool_decide ((Z.of_nat i, Z.of_nat j) ∈ cells)
            then Ok solution_fill
            else if show_explored then
              match explored with
              | None => Raise AttributeError
              | Some ex =>
                  if bool_decide ((Z.of_nat i, Z.of_nat j) ∈ ex)
                  then Ok explored_fill else Ok open_fill
              end
            else Ok open_fill
        end.

(** Lines 310-311: the rectangle of row [i], column [j]. *)
Definition rect_of (i j : nat) : Rect :=
  {| x0 := Z.of_nat j * cell_size + cell_border;
     y0 := Z.of_nat i * cell_size + cell_border;
     x1 := (Z.of_nat j + 1) * cell_size - cell_border;
     y1 := (Z.of_nat i + 1) * cell_size - cell_border |}.

(** The loops of lines 292-313; [acc] holds the calls of
    [draw.rectangle] made so far. An exception ends them. *)
Fixpoint image_row (m : Maze) (solution : option (list cell))
    (explored : option (gset cell)) (show_solution show_explored : bool)
    (i j : nat) (row : list bool) (acc : list (Rect * Color))
  : Result (list (Rect * Color)) :=
  match row with
  | [] => Ok acc
  | col :: row' =>
      fill ← fill_of m solution explored show_solution show_explored i j col;
      image_row m solution explored show_solution show_explored i (S j) row'
        (acc ++ [(rect_of i j, fill)])
  end.

Fixpoint image_rows (m : Maze) (solution : option (list cell))
    (explored : option (gset cell)) (show_solution show_explored : bool)
    (i : nat) (rows : list (list bool)) (acc : list (Rect * Color))
  : Result (list (Rect * Color)) :=
  match rows with
  | [] => Ok acc
  | row :: rows' =>
      acc' ← image_row m solution explored show_solution show_explored
               i 0 row acc;
      image_rows m solution explored show_solution show_explored
        (S i) rows' acc'
  end.

(** What [output_image] asks of the imaging library: an image of
    [img_size] pixels, the rectangles in the order they are drawn, and
    the file the image is saved to. *)
Record Drawing := {
  img_size : Z * Z;
  rects : list (Rect * Color);
  saved_as : string
}.

(** [Maze.output_image]; [sol] and [explored] are the attributes
    [self.solution] and [self.explored]. The image is saved after the
    loops, so an exception in them leaves no file. *)
Definition output_image (m : Maze) (sol : option Solution)
    (explored : option (gset cell)) (filename : string)
    (show_solution show_explored : bool) : Result Drawing :=
  let solution := match sol with Some s => Some s.2 | None => None end in
  rs ← image_rows m solution explored show_solution show_explored
         0 (walls m) [];
  Ok {| img_size := (width m * cell_size, height m * cell_size);
        rects := rs; saved_as := filename |}.



(** ** The script *)

(** How the run of the script ends: it reaches its last line, [sys.exit]
    leaves it with a message, an exception of the maze code is not
    caught, or the file cannot be read. *)
Inductive Ended :=
| Finished
| Exited (msg : string)
| Uncaught (e : Exn)
| Unreadable.

(** What a run leaves behind: the text on the standard output, the image
    saved, and how it ended. *)
Record Session := {
  stdout : str;
  image : option Drawing;
  ended : Ended
}.

(** [print(s)] for a string. *)
Definition println (s : string) : str := str_of s ++ [chr_newline].

(** Lines 320-335. [argv] is [sys.argv], [read] gives the text of a file
    that can be opened and read, [fuel] bounds the passes of the loop of
    [solve] as in [solve_with]. *)
Definition script (argv : list string) (read : string → option str)
    (fuel : nat) : option Session :=
  if bool_decide (length argv ≠ 2%nat) then
    Some {| stdout := []; image := None;
            ended := Exited "Usage: python maze.py maze.txt" |}
  else
    match argv !! 1%nat with
    | None => Some {| stdout := []; image := None; ended := Uncaught IndexError |}
    | Some filename =>
        match read filename with
        | None => Some {| stdout := []; image := None; ended := Unreadable |}
        | Some contents =>
            match Maze_init contents with
            | Raise e =>
                Some {| stdout := []; image := None; ended := Uncaught e |}
            | Ok m =>
                let out1 := println "Maze:" in
                match Maze_print m None with
                | (p1, Some e) =>
                    Some {| stdout := out1 ++ p1; image := None;
                            ended := Uncaught e |}
                | (p1, None) =>
                    let out2 := out1 ++ p1 ++ println "Solving..." in
                    match solve fuel m with
                    | None => None
                    | Some (Failed e _) =>
                        Some {| stdout := out2; image := None;
                                ended := Uncaught e |}
                    | Some (Solved sol st) =>
                        let out3 :=
                          out2 ++ str_of "States Explored:" ++ [chr_space]
                               ++ println (pretty (num_explored st))
                               ++ println "Solution:" in
                        match Maze_print m (Some sol) with
                        | (p2, Some e) =>
                            Some {| stdout := out3 ++ p2; image := None;
                                    ended := Uncaught e |}
                        | (p2, None) =>
                            match output_image m (Some sol)
                                    (Some (explored st)) "maze.png"
                                    true true with
                            | Raise e =>
                                Some {| stdout := out3 ++ p2; image := None;
                                        ended := Uncaught e |}
                            | Ok d =>
                                Some {| stdout := out3 ++ p2;
                                        image := Some d;
                                        ended := Finished |}
                            end
                        end
                    end
                end
            end
        end
    end.

(** * Properties *)

(** ** The fixtures *)

Example ring_init : Maze_init ring_text = Ok ring.
Proof. vm_compute. reflexivity. Qed.

Example blocked_init : Maze_init blocked_text = Ok blocked.
Proof. vm_compute. reflexivity. Qed.

(** A marker outside the window leaves its attribute unassigned, and
    [solve] then stops at the first comparison with [self.goal]. *)
Example clipped_init : Maze_init clipped_text = Ok clipped.
Proof. vm_compute. reflexivity. Qed.

Example clipped_solve :
  solve (enough clipped) clipped
  = Some (Failed AttributeError
            {| frontier := []; explored := ∅; num_explored := 1 |}).
Proof. vm_compute. reflexivity. Qed.

Example ring_solve :
  (λ r, match r with
        | Some (Solved sol st) => Some (sol, num_explored st)
        | _ => None
        end) (solve (enough ring) ring)
  = Some ([Some "right"; Some "right"; Some "down"; Some "down";
           Some "left"; Some "left"]%string,
          [(0, 1); (0, 2); (1, 2); (2, 2); (2, 1); (2, 0)], 7%nat).
Proof. vm_compute. reflexivity. Qed.

Example ring_queue :
  (λ r, match r with
        | Some (Solved sol st) => Some (sol, num_explored st)
        | _ => None
        end) (solve_with QueueFrontier (enough ring) ring)
  = Some ([Some "down"; Some "down"]%string, [(1, 0); (2, 0)], 4%nat).
Proof. vm_compute. reflexivity. Qed.

(** ** Frontiers *)

Section frontier_facts.
Import Frontier.

Lemma adds_from_empty (ns : list Node) : foldl add [] ns = ns.
Proof.
  induction ns as [|n ns IH] using rev_ind; [done|].
  by rewrite foldl_app /= IH.
Qed.

Lemma empty_false (fr : list Node) : empty fr = false ↔ fr ≠ [].
Proof.
  unfold empty. rewrite bool_decide_eq_false. by destruct fr.
Qed.

(** Either class takes one node out and keeps the others in order. *)
Lemma remove_Ok k fr node rest :
  remove k fr = Ok (node, rest) →
  ∃ l1 l2, fr = l1 ++ node :: l2 ∧ rest = l1 ++ l2 ∧
           (k = StackFrontier → l2 = []) ∧ (k = QueueFrontier → l1 = []).
Proof.
  unfold remove. destruct (empty fr) eqn:He; [done|].
  destruct k.
  - destruct (last fr) as [n|] eqn:Hl; [|done].
    intros [= -> <-]. apply last_Some in Hl as [l' ->].
    exists l', []. rewrite length_app /= Nat.add_sub app_nil_r.
    by rewrite take_app_length.
  - destruct fr as [|n fr]; [done|]. simpl. intros [= -> <-].
    by exists [], fr.
Qed.

Lemma remove_nonempty k fr :
  fr ≠ [] → ∃ node rest, remove k fr = Ok (node, rest).
Proof.
  intros Hne. unfold remove.
  apply empty_false in Hne as He. rewrite He. destruct k.
  - destruct (last fr) eqn:Hl; [eauto|].
    by apply last_None in Hl.
  - destruct fr; [done|]. simpl. eauto.
Qed.

(** Stack discipline: the node added last comes out first. *)
Lemma remove_stack fr node :
  remove StackFrontier (add fr node) = Ok (node, fr).
Proof.
  unfold remove, add.
  assert (empty (fr ++ [node]) = false) as ->
    by (apply empty_false; by destruct fr).
  by rewrite last_snoc length_app /= Nat.add_sub take_app_length.
Qed.

Lemma remove_queue node rest :
  remove QueueFrontier (node :: rest) = Ok (node, rest).
Proof. done. Qed.

Lemma contains_state_true fr st :
  contains_state fr st = true ↔ st ∈ states fr.
Proof.
  unfold contains_state, states. rewrite existsb_exists list_elem_of_fmap.
  split.
  - intros (n & Hn & Heq). apply bool_decide_eq_true in Heq.
    exists n. by apply list_elem_of_In in Hn.
  - intros (n & -> & Hn). exists n. apply list_elem_of_In in Hn.
    by rewrite bool_decide_eq_true.
Qed.

End frontier_facts.

(** C8. Queue discipline: after [add(n1); add(n2); add(n3)] the calls of
    [remove] yield [n1], [n2], [n3]; in general [remove] returns the node
    added first and leaves the later ones in the order of their addition. *)
Theorem queue_remove_first_added :
  (∀ n1 n2 n3 : Node,
     let fr0 := Frontier.add (Frontier.add (Frontier.add [] n1) n2) n3 in
     ∃ fr1 fr2 fr3,
       Frontier.remove QueueFrontier fr0 = Ok (n1, fr1) ∧
       Frontier.remove QueueFrontier fr1 = Ok (n2, fr2) ∧
       Frontier.remove QueueFrontier fr2 = Ok (n3, fr3) ∧
       fr3 = []) ∧
  (∀ (node : Node) (later : list Node),
     Frontier.remove QueueFrontier (foldl Frontier.add [] (node :: later))
     = Ok (node, foldl Frontier.add [] later)).
Proof.
  split.
  - intros n1 n2 n3. simpl. by exists [n2; n3], [n3], [].
  - intros node later. by rewrite !adds_from_empty.
Qed.

(** C9. [remove()] on an empty frontier of either class raises the
    exception "empty frontier". *)
Theorem remove_empty_raises (k : FrontierClass) :
  Frontier.remove k [] = Raise EmptyFrontier.
Proof. by destruct k. Qed.

(** ** The constructor *)

Section constructor_facts.

(** [splitlines] yields no line only for the empty string. *)
Lemma splitlines_from_nil cur s :
  splitlines_from cur s = [] → cur = [] ∧ s = [].
Proof.
  revert cur. induction s as [|c s IH]; intros cur; simpl.
  - by destruct cur.
  - destruct (is_linebreak c); [done|].
    intros H. by apply IH in H as [? _].
Qed.

Lemma count_nil c : count c [] = 0%nat.
Proof. done. Qed.

Lemma splitlines_first contents :
  count chr_A contents = 1%nat → ∃ line0, splitlines contents !! 0%nat = Some line0.
Proof.
  intros Hc. destruct (splitlines contents) as [|l ls] eqn:Hs; [|by eexists].
  apply splitlines_from_nil in Hs as [_ ->]. by rewrite count_nil in Hc.
Qed.

Lemma init_cell_row lines i js acc :
  (foldl (λ a j, init_cell lines i j a) acc js).2
  = acc.2 ++ (cell_wall lines i <$> js).
Proof.
  revert acc. induction js as [|j js IH]; intros [[st gl] row]; simpl.
  - by rewrite app_nil_r.
  - rewrite IH. unfold cell_wall, char_is_wall.
    destruct (lines !! i ≫= (.!! j)) as [ch|]; simpl;
      repeat case_bool_decide; simpl; by rewrite -app_assoc.
Qed.

Lemma init_row_walls lines w rows acc :
  (foldl (λ a i, init_row lines w i a) acc rows).2
  = acc.2 ++ ((λ i, cell_wall lines i <$> seq 0 w) <$> rows).
Proof.
  revert acc. induction rows as [|i rows IH]; intros [[st gl] ws]; simpl.
  - by rewrite app_nil_r.
  - rewrite IH. unfold init_row.
    pose proof (init_cell_row lines i (seq 0 w) (st, gl, [])) as Hrow.
    destruct (foldl _ (st, gl, []) (seq 0 w)) as [[st' gl'] row].
    simpl in *. subst row. by rewrite -app_assoc.
Qed.

(** The marker found at a position recorded as start or goal. *)
Lemma init_cell_start lines i js acc :
  let r := foldl (λ a j, init_cell lines i j a) acc js in
  r.1.1 = acc.1.1 ∨
  ∃ j, j ∈ js ∧ r.1.1 = Some (Z.of_nat i, Z.of_nat j) ∧
       lines !! i ≫= (.!! j) = Some chr_A.
Proof.
  revert acc. induction js as [|j js IH]; intros [[st gl] row]; simpl.
  - by left.
  - destruct (IH (init_cell lines i j (st, gl, row))) as [Heq|(j' & ? & ? & ?)].
    + rewrite Heq. unfold init_cell.
      destruct (lines !! i ≫= (.!! j)) as [ch|] eqn:Hch; simpl; [|by left].
      repeat case_bool_decide; simpl; try by left.
      right. exists j. subst ch. split; [by left|done].
    + right. exists j'. split; [by right|done].
Qed.

Lemma init_cell_goal lines i js acc :
  let r := foldl (λ a j, init_cell lines i j a) acc js in
  r.1.2 = acc.1.2 ∨
  ∃ j, j ∈ js ∧ r.1.2 = Some (Z.of_nat i, Z.of_nat j) ∧
       lines !! i ≫= (.!! j) = Some chr_B.
Proof.
  revert acc. induction js as [|j js IH]; intros [[st gl] row]; simpl.
  - by left.
  - destruct (IH (init_cell lines i j (st, gl, row))) as [Heq|(j' & ? & ? & ?)].
    + rewrite Heq. unfold init_cell.
      destruct (lines !! i ≫= (.!! j)) as [ch|] eqn:Hch; simpl; [|by left].
      repeat case_bool_decide; simpl; try by left.
      right. exists j. subst ch. split; [by left|done].
    + right. exists j'. split; [by right|done].
Qed.

Lemma init_row_start lines w rows acc :
  let r := foldl (λ a i, init_row lines w i a) acc rows in
  r.1.1 = acc.1.1 ∨
  ∃ i j, i ∈ rows ∧ (j < w)%nat ∧ r.1.1 = Some (Z.of_nat i, Z.of_nat j) ∧
         lines !! i ≫= (.!! j) = Some chr_A.
Proof.
  revert acc. induction rows as [|i rows IH]; intros [[st gl] ws]; simpl.
  - by left.
  - destruct (IH (init_row lines w i (st, gl, ws)))
      as [Heq|(i' & j' & ? & ? & ? & ?)].
    + rewrite Heq. unfold init_row.
      pose proof (init_cell_start lines i (seq 0 w) (st, gl, [])) as Hrow.
      destruct (foldl _ (st, gl, []) (seq 0 w)) as [[st' gl'] row].
      simpl in *. destruct Hrow as [->|(j & Hj & -> & ?)]; [by left|].
      right. exists i, j. apply elem_of_seq in Hj.
      split; [by left|]. split; [lia|done].
    + right. exists i', j'. split; [by right|done].
Qed.

Lemma init_row_goal lines w rows acc :
  let r := foldl (λ a i, init_row lines w i a) acc rows in
  r.1.2 = acc.1.2 ∨
  ∃ i j, i ∈ rows ∧ (j < w)%nat ∧ r.1.2 = Some (Z.of_nat i, Z.of_nat j) ∧
         lines !! i ≫= (.!! j) = Some chr_B.
Proof.
  revert acc. induction rows as [|i rows IH]; intros [[st gl] ws]; simpl.
  - by left.
  - destruct (IH (init_row lines w i (st, gl, ws)))
      as [Heq|(i' & j' & ? & ? & ? & ?)].
    + rewrite Heq. unfold init_row.
      pose proof (init_cell_goal lines i (seq 0 w) (st, gl, [])) as Hrow.
      destruct (foldl _ (st, gl, []) (seq 0 w)) as [[st' gl'] row].
      simpl in *. destruct Hrow as [->|(j & Hj & -> & ?)]; [by left|].
      right. exists i, j. apply elem_of_seq in Hj.
      split; [by left|]. split; [lia|done].
    + right. exists i', j'. split; [by right|done].
Qed.

(** What a successful construction assigns. *)
Lemma Maze_init_Ok contents m :
  Maze_init contents = Ok m →
  ∃ line0,
    count chr_A contents = 1%nat ∧ count chr_B contents = 1%nat ∧
    splitlines contents !! 0%nat = Some line0 ∧
    height m = Z.of_nat (length (splitlines contents)) ∧
    width m = Z.of_nat (length line0) ∧
    walls m = (λ i, cell_wall (splitlines contents) i <$> seq 0 (length line0))
                <$> seq 0 (length (splitlines contents)) ∧
    (∀ c, start m = Some c →
       ∃ i j, c = (Z.of_nat i, Z.of_nat j) ∧
              (i < length (splitlines contents))%nat ∧
              (j < length line0)%nat ∧
              splitlines contents !! i ≫= (.!! j) = Some chr_A) ∧
    (∀ c, goal m = Some c →
       ∃ i j, c = (Z.of_nat i, Z.of_nat j) ∧
              (i < length (splitlines contents))%nat ∧
              (j < length line0)%nat ∧
              splitlines contents !! i ≫= (.!! j) = Some chr_B).
Proof.
  unfold Maze_init. case_bool_decide as HA; [done|].
  case_bool_decide as HB; [done|].
  set (lines := splitlines contents).
  destruct (lines !! 0%nat) as [line0|] eqn:H0; [|done].
  set (w := length line0). set (h := length lines).
  pose proof (init_row_walls lines w (seq 0 h) (None, None, [])) as Hw.
  pose proof (init_row_start lines w (seq 0 h) (None, None, [])) as Hs.
  pose proof (init_row_goal lines w (seq 0 h) (None, None, [])) as Hg.
  destruct (foldl _ (None, None, []) (seq 0 h)) as [[st gl] ws].
  simpl in *. intros [= <-]. simpl. exists line0.
  do 6 (split; [done|]). split.
  - intros c ->. destruct Hs as [|(i & j & Hi & ? & [= ->] & ?)]; [done|].
    apply elem_of_seq in Hi. exists i, j. repeat split; [lia|done..].
  - intros c ->. destruct Hg as [|(i & j & Hi & ? & [= ->] & ?)]; [done|].
    apply elem_of_seq in Hi. exists i, j. repeat split; [lia|done..].
Qed.

Lemma table_lookup (lines : list str) (h w i j : nat) :
  (i < h)%nat → (j < w)%nat →
  ((λ i, cell_wall lines i <$> seq 0 w) <$> seq 0 h) !! i ≫= (.!! j)
  = Some (cell_wall lines i j).
Proof.
  intros Hi Hj. rewrite list_lookup_fmap lookup_seq_lt //=.
  by rewrite list_lookup_fmap lookup_seq_lt.
Qed.

(** A constructed maze with both markers inside the window is a grid of
    the data model. *)
Lemma Maze_init_Grid contents m s g :
  Maze_init contents = Ok m → start m = Some s → goal m = Some g →
  Grid m s g.
Proof.
  intros Hm Hs Hg.
  destruct (Maze_init_Ok _ _ Hm)
    as (line0 & _ & _ & H0 & Hh & Hw & Hwalls & Hstart & Hgoal).
  destruct (Hstart _ Hs) as (i & j & -> & Hi & Hj & HA).
  destruct (Hgoal _ Hg) as (i' & j' & -> & Hi' & Hj' & HB).
  split; try done.
  - lia.
  - lia.
  - split.
    + rewrite Hwalls Hh length_fmap length_seq. lia.
    + rewrite Hwalls Hw. apply Forall_fmap, Forall_forall. intros x _.
      simpl. rewrite length_fmap length_seq. lia.
  - unfold open_cell. simpl. rewrite !Nat2Z.id Hwalls.
    rewrite table_lookup // /cell_wall HA. split; [lia|]. split; [lia|done].
  - unfold open_cell. simpl. rewrite !Nat2Z.id Hwalls.
    rewrite table_lookup // /cell_wall HB. split; [lia|]. split; [lia|done].
  - intros [= Hii Hjj]. apply Nat2Z.inj in Hii, Hjj. subst.
    rewrite HA in HB. done.
Qed.

(** The two checks of lines 120-123 are the only way to fail. *)
Lemma Maze_init_raises contents e :
  Maze_init contents = Raise e →
  MalformedGrid e ∧
  (count chr_A contents ≠ 1%nat ∨ count chr_B contents ≠ 1%nat).
Proof.
  unfold Maze_init, MalformedGrid.
  case_bool_decide as HA; [intros [= <-]; eauto|].
  case_bool_decide as HB; [intros [= <-]; eauto|].
  destruct (splitlines_first _ HA) as [line0 H0]. cbv zeta. rewrite H0.
  by destruct (foldl _ _ _) as [[??]?].
Qed.

Lemma Maze_init_returns contents :
  count chr_A contents = 1%nat → count chr_B contents = 1%nat →
  ∃ m, Maze_init contents = Ok m.
Proof.
  intros HA HB. destruct (Maze_init contents) as [m|e] eqn:Hm; [by eexists|].
  apply Maze_init_raises in Hm as [_ [?|?]]; done.
Qed.

End constructor_facts.

(** C7. The constructor raises one of its two exceptions exactly when the
    text does not hold exactly one "A" or does not hold exactly one "B";
    it raises nothing else, and a call that raises yields no maze. *)
Theorem Maze_init_malformed (contents : str) :
  ((∃ e, Maze_init contents = Raise e ∧ MalformedGrid e) ↔
   (count chr_A contents ≠ 1%nat ∨ count chr_B contents ≠ 1%nat)) ∧
  (∀ e, Maze_init contents = Raise e → MalformedGrid e) ∧
  (∀ e m, Maze_init contents = Raise e → Maze_init contents ≠ Ok m).
Proof.
  split; [split|split].
  - intros (e & He & _). by apply Maze_init_raises in He as [_ ?].
  - intros Hc. unfold Maze_init, MalformedGrid.
    case_bool_decide as HA; [eauto|].
    case_bool_decide as HB; [eauto|].
    destruct Hc; done.
  - intros e He. by apply Maze_init_raises in He as [? _].
  - intros e m' ->. done.
Qed.

(** C10. A text with one "A" and one "B" is constructed without an
    exception whatever the lengths of its rows, and every column position
    of the window that lies beyond the end of its source row is recorded
    in the obstacle table as open ([False]). *)
Theorem short_row_padded_open (contents : str) :
  count chr_A contents = 1%nat → count chr_B contents = 1%nat →
  ∃ m, Maze_init contents = Ok m ∧
    ∀ (i j : nat) (line : str),
      splitlines contents !! i = Some line →
      (length line ≤ j)%nat → Z.of_nat j < width m →
      ∃ row, walls m !! i = Some row ∧ row !! j = Some false.
Proof.
  intros HA HB. destruct (Maze_init_returns _ HA HB) as [m Hm].
  exists m. split; [done|]. intros i j line Hline Hshort Hj.
  destruct (Maze_init_Ok _ _ Hm) as (line0 & _ & _ & _ & _ & Hw & Hwalls & _).
  apply lookup_lt_Some in Hline as Hi.
  exists (cell_wall (splitlines contents) i <$> seq 0 (length line0)).
  rewrite Hwalls. split.
  - by rewrite list_lookup_fmap lookup_seq_lt.
  - rewrite list_lookup_fmap lookup_seq_lt /=; [lia|].
    unfold cell_wall. rewrite Hline /=.
    by rewrite (lookup_ge_None_2 line j).
Qed.

(** ** neighbors *)

Section neighbors_facts.
Context (m : Maze).

Lemma in_bounds_true c :
  in_bounds m c = true ↔ (0 ≤ c.1 < height m) ∧ (0 ≤ c.2 < width m).
Proof.
  unfold in_bounds. by rewrite andb_true_iff !bool_decide_eq_true.
Qed.

Lemma wall_at_Ok c b :
  wall_at m c = Ok b ↔ walls m !! Z.to_nat c.1 ≫= (.!! Z.to_nat c.2) = Some b.
Proof.
  unfold wall_at. destruct (walls m !! Z.to_nat c.1) as [row|]; simpl; [|done].
  destruct (row !! Z.to_nat c.2); split; congruence.
Qed.

(** Inside the window a full table has an entry. *)
Lemma wall_at_table c :
  table m → in_bounds m c = true → ∃ b, wall_at m c = Ok b.
Proof.
  intros [Hrows Hcols] [Hr Hc]%in_bounds_true. unfold wall_at.
  destruct (lookup_lt_is_Some_2 (walls m) (Z.to_nat c.1)) as [row Hrow];
    [lia|].
  rewrite Hrow. rewrite Forall_forall in Hcols.
  assert (length row = Z.to_nat (width m)) as Hlen
    by (apply Hcols; by eapply list_elem_of_lookup_2).
  destruct (lookup_lt_is_Some_2 row (Z.to_nat c.2)) as [b ->]; [lia|].
  by exists b.
Qed.

Lemma open_cell_alt c :
  open_cell m c ↔ in_bounds m c = true ∧ wall_at m c = Ok false.
Proof.
  unfold open_cell. rewrite in_bounds_true wall_at_Ok. tauto.
Qed.

Lemma neighbors_loop_Ok cands acc ns :
  neighbors_loop m cands acc = Ok ns →
  ns = acc ++ filter (λ p, open_cell m p.2) cands.
Proof.
  revert acc. induction cands as [|[act c] cands IH]; intros acc; simpl.
  - intros [= <-]. by rewrite app_nil_r.
  - rewrite filter_cons /=. destruct (in_bounds m c) eqn:Hin.
    + destruct (wall_at m c) as [[]|] eqn:Hw; simpl; [| |done].
      * intros ->%IH. rewrite decide_False //.
        rewrite open_cell_alt. intros [_ ?]. congruence.
      * intros ->%IH. rewrite decide_True; [by rewrite open_cell_alt|].
        by rewrite -app_assoc.
    + intros ->%IH. rewrite decide_False //.
      rewrite open_cell_alt. intros [? _]. congruence.
Qed.

Lemma neighbors_loop_table cands acc :
  table m → ∃ ns, neighbors_loop m cands acc = Ok ns.
Proof.
  intros Ht. revert acc.
  induction cands as [|[act c] cands IH]; intros acc; simpl; [by eexists|].
  destruct (in_bounds m c) eqn:Hin; [|apply IH].
  destruct (wall_at_table c Ht Hin) as [b ->]. simpl.
  destruct b; simpl; apply IH.
Qed.

Lemma neighbors_Ok st ns :
  neighbors m st = Ok ns → ns = filter (λ p, open_cell m p.2) (candidates st).
Proof. apply neighbors_loop_Ok. Qed.

Lemma neighbors_table st :
  table m →
  neighbors m st = Ok (filter (λ p, open_cell m p.2) (candidates st)).
Proof.
  intros Ht. destruct (neighbors_loop_table (candidates st) [] Ht) as [ns Hns].
  unfold neighbors. rewrite Hns. f_equal. by apply neighbors_loop_Ok in Hns.
Qed.

(** A move leads to an open cell next to its origin. *)
Lemma move_open act a b : move m act a b → open_cell m b.
Proof.
  intros (ns & Hns & Hin). apply neighbors_Ok in Hns. subst ns.
  by apply list_elem_of_filter in Hin as [? _].
Qed.

Lemma move_other act a b : move m act a b → b ≠ a.
Proof.
  intros (ns & Hns & Hin). apply neighbors_Ok in Hns. subst ns.
  apply list_elem_of_filter in Hin as [_ Hin]. destruct a as [r c].
  simpl in Hin. set_unfold. intros ->.
  destruct Hin as [H|[H|[H|[H|[]]]]]; inversion H; lia.
Qed.

End neighbors_facts.

(** C5. [neighbors] returns, of the four moves up, down, left, right in
    this order, exactly the pairs whose destination is within
    [[0, height) x [0, width)] and not a wall. *)
Theorem neighbors_filters_moves (m : Maze) (row col : Z) :
  table m →
  neighbors m (row, col)
  = Ok (filter (λ p, open_cell m p.2)
          [("up"%string, (row - 1, col)); ("down"%string, (row + 1, col));
           ("left"%string, (row, col - 1)); ("right"%string, (row, col + 1))]).
Proof. intros Ht. by rewrite neighbors_table. Qed.

(** ** Walks and parent chains *)

Section walk_facts.
Context (m : Maze).

Lemma walk_end_nil a : walk_end a [] = a.
Proof. done. Qed.

Lemma walk_end_snoc a cells c : walk_end a (cells ++ [c]) = c.
Proof. unfold walk_end. by rewrite last_snoc. Qed.

Lemma walk_end_cons a c cells : walk_end a (c :: cells) = walk_end c cells.
Proof.
  unfold walk_end. destruct cells as [|c' cells]; [done|].
  rewrite !last_cons. by destruct (last cells).
Qed.

Lemma walk_snoc a cells c :
  walk m a (cells ++ [c]) ↔
  walk m a cells ∧ ∃ act, move m act (walk_end a cells) c.
Proof.
  revert a. induction cells as [|c' cells IH]; intros a; simpl.
  - rewrite walk_end_nil. tauto.
  - rewrite IH walk_end_cons. tauto.
Qed.

Lemma labelled_snoc a actions cells act c :
  labelled m a (actions ++ [Some act]) (cells ++ [c]) ↔
  labelled m a actions cells ∧ move m act (walk_end a cells) c.
Proof.
  revert a cells. induction actions as [|[act'|] actions IH];
    intros a [|c' cells]; simpl; try tauto.
  - destruct cells; simpl; tauto.
  - destruct actions as [|[?|] ?]; simpl; tauto.
  - rewrite IH walk_end_cons. tauto.
Qed.

Lemma labelled_walk a actions cells :
  labelled m a actions cells →
  walk m a cells ∧ length actions = length cells.
Proof.
  revert a cells. induction actions as [|[act|] actions IH];
    intros a [|c cells]; simpl; try done.
  intros [Hmove [Hw Hl]%IH]. split; [|by rewrite Hl].
  split; [by exists act|done].
Qed.

(** Induction along the parent links. *)
Lemma Node_parent_ind (P : Node → Prop) :
  (∀ st a, P (mkNode st None a)) →
  (∀ st p a, P p → P (mkNode st (Some p) a)) →
  ∀ node, P node.
Proof.
  intros Hroot Hchild. fix IH 1. intros [st [p|] a].
  - apply Hchild, IH.
  - apply Hroot.
Qed.

Lemma trace_back_chain node actions cells :
  trace_back node actions cells
  = (actions ++ reverse (node_actions node),
     cells ++ reverse (node_cells node)).
Proof.
  revert actions cells. induction node as [st a|st p a IH]
    using Node_parent_ind; intros actions cells; simpl.
  - by rewrite !app_nil_r.
  - by rewrite IH !reverse_snoc -!app_assoc.
Qed.

Lemma solution_of_chain node :
  solution_of node = (node_actions node, node_cells node).
Proof.
  unfold solution_of. rewrite trace_back_chain /=.
  by rewrite !reverse_involutive.
Qed.

Lemma length_node_cells node : length (node_cells node) = depth node.
Proof.
  induction node as [st a|st p a IH] using Node_parent_ind; simpl; [done|].
  rewrite length_app /= IH. lia.
Qed.

Lemma linked_labelled s node :
  linked m s node →
  labelled m s (node_actions node) (node_cells node) ∧
  walk_end s (node_cells node) = state node.
Proof.
  induction node as [st a|st p a IH] using Node_parent_ind; simpl.
  - by intros ->.
  - intros [[Hl He]%IH (act & -> & Hmove)].
    rewrite labelled_snoc walk_end_snoc He. done.
Qed.

Lemma linked_reachable s node :
  linked m s node → reachable m s (state node).
Proof.
  intros [[Hw _]%labelled_walk He]%linked_labelled.
  by exists (node_cells node).
Qed.

Lemma linked_child s node act c :
  linked m s node → move m act (state node) c →
  linked m s (mkNode c (Some node) (Some act)).
Proof. intros Hl Hm. simpl. split; [done|]. by exists act. Qed.

End walk_facts.

(** ** One pass of the loop *)

Section step_facts.
Context (k : FrontierClass) (m : Maze).

Lemma step_Continue st st' :
  step k m st = Continue st' →
  ∃ node rest gl ns,
    Frontier.remove k (frontier st) = Ok (node, rest) ∧
    goal m = Some gl ∧ state node ≠ gl ∧
    neighbors m (state node) = Ok ns ∧
    st' = {| frontier := expand node ({[state node]} ∪ explored st) rest ns;
             explored := {[state node]} ∪ explored st;
             num_explored := S (num_explored st) |}.
Proof.
  unfold step. destruct (Frontier.empty _); [done|].
  destruct (Frontier.remove _ _) as [[node rest]|]; [|done].
  destruct (goal m) as [gl|]; [|done].
  case_bool_decide; [done|].
  destruct (neighbors m (state node)) as [ns|] eqn:Hns; [|done].
  intros [= <-]. by exists node, rest, gl, ns.
Qed.

Lemma step_Returned st sol st' :
  step k m st = Returned sol st' →
  ∃ node rest,
    Frontier.remove k (frontier st) = Ok (node, rest) ∧
    goal m = Some (state node) ∧ sol = solution_of node ∧
    st' = {| frontier := rest; explored := explored st;
             num_explored := S (num_explored st) |}.
Proof.
  unfold step. destruct (Frontier.empty _); [done|].
  destruct (Frontier.remove _ _) as [[node rest]|]; [|done].
  destruct (goal m) as [gl|]; [|done].
  case_bool_decide as Hg; [|by destruct (neighbors _ _)].
  intros [= <- <-]. exists node, rest. by rewrite Hg.
Qed.

(** With a goal and a full table only the empty frontier raises. *)
Lemma step_Raised st e st' g :
  table m → goal m = Some g →
  step k m st = Raised e st' →
  e = NoSolution ∧ frontier st = [] ∧ st' = st.
Proof.
  intros Ht Hg. unfold step.
  destruct (Frontier.empty _) eqn:He.
  { intros [= <- <-]. apply bool_decide_eq_true in He.
    by destruct (frontier st). }
  apply empty_false in He.
  destruct (remove_nonempty k _ He) as (node & rest & ->).
  rewrite Hg. case_bool_decide; [done|].
  by rewrite neighbors_table.
Qed.

(** The children added for the neighbors [ns] of [node]. *)
Lemma expand_spec node ex ns fr :
  ∃ kids,
    expand node ex fr ns = fr ++ kids ∧
    (∀ n, n ∈ kids →
       ∃ act, n = mkNode (state n) (Some node) (Some act) ∧
              (act, state n) ∈ ns ∧ (state n ∉ ex) ∧
              (state n ∉ states fr)) ∧
    NoDup (states kids) ∧
    (∀ act c, (act, c) ∈ ns → c ∈ ex ∨ c ∈ states (fr ++ kids)).
Proof.
  revert fr. induction ns as [|[act c] ns IH]; intros fr; simpl.
  { exists []. rewrite app_nil_r. split_and!.
    - done.
    - intros n Hn. by apply elem_of_nil in Hn.
    - constructor.
    - intros act c Hin. by apply elem_of_nil in Hin. }
  destruct (negb (Frontier.contains_state fr c) && bool_decide (c ∉ ex))
    eqn:Hadd.
  - apply andb_true_iff in Hadd as [Hfr Hex].
    apply negb_true_iff, not_true_iff_false in Hfr.
    rewrite contains_state_true in Hfr. apply bool_decide_eq_true in Hex.
    destruct (IH (Frontier.add fr (mkNode c (Some node) (Some act))))
      as (kids & Heq & Hkids & Hnd & Hcl).
    unfold Frontier.add in *.
    exists (mkNode c (Some node) (Some act) :: kids).
    rewrite Heq -app_assoc /=. split_and!; [done| | |].
    + intros n [->|Hn]%elem_of_cons.
      * exists act. simpl. split_and!; [done|by left|done..].
      * destruct (Hkids n Hn) as (act' & ? & ? & ? & Hnot).
        exists act'. split_and!; [done|by right|done|].
        intros Hin. apply Hnot. unfold states.
        rewrite fmap_app elem_of_app. by left.
    + simpl. constructor; [|done]. intros Hin.
      apply list_elem_of_fmap in Hin as (n & Hc & Hn).
      destruct (Hkids n Hn) as (_ & _ & _ & _ & Hnot).
      apply Hnot. unfold states. rewrite fmap_app elem_of_app. right.
      simpl. rewrite -Hc. by left.
    + intros act' c' [[= -> ->]|Hin]%elem_of_cons.
      * right. unfold states. rewrite fmap_app elem_of_app. right.
        simpl. by left.
      * destruct (Hcl _ _ Hin) as [?|Hin']; [by left|]. right.
        by rewrite -app_assoc in Hin'.
  - destruct (IH fr) as (kids & Heq & Hkids & Hnd & Hcl).
    exists kids. split_and!; [done| |done|].
    + intros n Hn. destruct (Hkids n Hn) as (act' & ? & ? & ? & ?).
      exists act'. split_and!; [done|by right|done..].
    + intros act' c' [[= -> ->]|Hin]%elem_of_cons; [|by eapply Hcl].
      apply andb_false_iff in Hadd as [Hfr|Hex].
      * apply negb_false_iff, contains_state_true in Hfr. right.
        unfold states. rewrite fmap_app elem_of_app. by left.
      * apply bool_decide_eq_false in Hex. left.
        by apply dec_stable in Hex.
Qed.

End step_facts.

(** ** The invariant of the loop *)

Section invariant.
Context (k : FrontierClass) (m : Maze) (s g : cell).
Hypothesis Hgoal : goal m = Some g.

(** A pass that goes on, spelled out: the node taken, the nodes left
    and the children added. *)
Lemma pass_shape st st' :
  step k m st = Continue st' →
  ∃ node l1 l2 ns kids,
    frontier st = l1 ++ node :: l2 ∧
    (k = QueueFrontier → l1 = []) ∧
    state node ≠ g ∧
    neighbors m (state node) = Ok ns ∧
    frontier st' = (l1 ++ l2) ++ kids ∧
    explored st' = {[state node]} ∪ explored st ∧
    num_explored st' = S (num_explored st) ∧
    removed_at k st = Some node ∧
    added_at k m st = kids ∧
    (∀ n, n ∈ kids →
       ∃ act, n = mkNode (state n) (Some node) (Some act) ∧
              (act, state n) ∈ ns ∧ (state n ∉ explored st') ∧
              (state n ∉ states (l1 ++ l2))) ∧
    NoDup (states kids) ∧
    (∀ act c, (act, c) ∈ ns →
       c ∈ explored st' ∨ c ∈ states ((l1 ++ l2) ++ kids)).
Proof.
  intros Hstep.
  destruct (step_Continue _ _ _ _ Hstep)
    as (node & rest & gl & ns & Hrem & Hgl & Hne & Hns & ->).
  rewrite Hgoal in Hgl. injection Hgl as <-.
  destruct (remove_Ok _ _ _ _ Hrem) as (l1 & l2 & Hfr & -> & _ & Hq).
  destruct (expand_spec node ({[state node]} ∪ explored st) ns (l1 ++ l2))
    as (kids & Hexp & Hkids & Hnd & Hcl).
  exists node, l1, l2, ns, kids. simpl. rewrite Hexp.
  split_and!; try done.
  - unfold removed_at. by rewrite Hrem.
  - unfold added_at. rewrite Hstep Hrem /= Hexp.
    by rewrite drop_app_length.
Qed.

Lemma Inv_init : Inv m s g (initial s).
Proof using Type.
  clear Hgoal.
  split; cbn [initial frontier explored num_explored Frontier.add app].
  - intros n ->%list_elem_of_singleton. done.
  - apply NoDup_singleton.
  - set_solver.
  - set_solver.
  - right. by left.
  - set_solver.
  - by rewrite size_empty.
  - set_solver.
  - intros c [Hc| ->%list_elem_of_singleton]; [set_solver|by left].
Qed.

Lemma states_app l1 l2 : states (l1 ++ l2) = states l1 ++ states l2.
Proof. apply fmap_app. Qed.

Lemma elem_of_states c ns : c ∈ states ns ↔ ∃ n, n ∈ ns ∧ state n = c.
Proof. unfold states. rewrite list_elem_of_fmap. naive_solver. Qed.

Lemma move_neighbors act a c ns :
  neighbors m a = Ok ns → move m act a c ↔ (act, c) ∈ ns.
Proof.
  intros Hns. split; [|by exists ns].
  intros (ns' & Hns' & Hin). congruence.
Qed.

Lemma Inv_step st st' :
  Inv m s g st → step k m st = Continue st' → Inv m s g st'.
Proof.
  intros [Hlink Hnd Hfresh Hclosed Hstart Hg Hcount Hreach Hworld] Hstep.
  destruct (pass_shape _ _ Hstep)
    as (node & l1 & l2 & ns & kids & Hfr & _ & Hne & Hns & Hfr' & Hex'
        & Hnum' & _ & _ & Hkids & Hndk & Hcl).
  assert (Hnode : node ∈ frontier st) by (rewrite Hfr; set_solver).
  assert (Hnew : state node ∉ explored st).
  { apply Hfresh, elem_of_states. by exists node. }
  rewrite Hfr states_app /= in Hnd.
  apply NoDup_app in Hnd as (Hnd1 & Hnd12 & Hnd2).
  apply NoDup_cons in Hnd2 as [Hn2 Hnd2].
  assert (Hrest : state node ∉ states (l1 ++ l2)).
  { rewrite states_app elem_of_app. intros [H1|H2]; [|done].
    apply (Hnd12 _ H1). by left. }
  assert (Hseen : ∀ c, seen st c → seen st' c).
  { intros c [Hc|Hc]; [left; rewrite Hex'; set_solver|].
    rewrite Hfr states_app /= in Hc. unfold seen.
    rewrite Hex' Hfr' !states_app.
    set_unfold. naive_solver. }
  split.
  - intros n. rewrite Hfr' elem_of_app. intros [Hn|Hn].
    + apply Hlink. rewrite Hfr. set_solver.
    + destruct (Hkids n Hn) as (act & -> & Hin & _). simpl in Hin.
      apply linked_child; [by apply Hlink|]. by exists ns.
  - rewrite Hfr' states_app. apply NoDup_app. split_and!; [|  |done].
    + rewrite states_app. apply NoDup_app. split_and!; [done| |done].
      intros c H1 H2. apply (Hnd12 _ H1). by right.
    + intros c Hc [n [Hn <-]]%elem_of_states.
      by destruct (Hkids n Hn) as (_ & _ & _ & _ & ?).
  - intros c. rewrite Hfr' states_app elem_of_app Hex'.
    intros [Hc|[n [Hn <-]]%elem_of_states].
    + assert (c ≠ state node) by (by intros ->).
      assert (c ∉ explored st).
      { apply Hfresh. rewrite Hfr states_app /=.
        rewrite states_app in Hc. set_solver. }
      set_solver.
    + destruct (Hkids n Hn) as (_ & _ & _ & Hn' & _). by rewrite -Hex'.
  - intros e act c. rewrite Hex' elem_of_union elem_of_singleton.
    intros [-> |He] Hmove.
    + apply (move_neighbors _ _ _ _ Hns) in Hmove.
      unfold seen. rewrite Hfr'. by apply (Hcl act).
    + apply Hseen. by eapply Hclosed.
  - by apply Hseen.
  - rewrite Hex'. set_solver.
  - rewrite Hnum' Hex' Hcount size_union; [set_solver|].
    by rewrite size_singleton.
  - intros e. rewrite Hex' elem_of_union elem_of_singleton.
    intros [-> |He]; [|by apply Hreach].
    by apply linked_reachable, Hlink.
  - intros c [Hc|Hc].
    + rewrite Hex' in Hc. apply elem_of_union in Hc as [->%elem_of_singleton |Hc].
      * apply Hworld. right. apply elem_of_states. by exists node.
      * apply Hworld. by left.
    + rewrite Hfr' states_app elem_of_app in Hc.
      destruct Hc as [Hc|[n [Hn <-]]%elem_of_states].
      * apply Hworld. right. rewrite Hfr states_app /=.
        rewrite states_app in Hc. set_solver.
      * destruct (Hkids n Hn) as (act & _ & Hin & _). right.
        apply (move_open m act (state node)). by exists ns.
Qed.

Lemma seen_step st st' c :
  Inv m s g st → step k m st = Continue st' → seen st c → seen st' c.
Proof.
  intros Hinv Hstep.
  destruct (pass_shape _ _ Hstep)
    as (node & l1 & l2 & ns & kids & Hfr & _ & _ & _ & Hfr' & Hex' & _).
  intros [Hc|Hc]; [left; rewrite Hex'; set_solver|].
  rewrite Hfr states_app /= in Hc. unfold seen.
  rewrite Hex' Hfr' !states_app.
  set_unfold. naive_solver.
Qed.

Lemma Inv_iter n st st' :
  Inv m s g st → iter k m n st = Some st' → Inv m s g st'.
Proof.
  revert st. induction n as [|n IH]; intros st Hinv; simpl.
  - by intros [= <-].
  - destruct (step k m st) as [st1| |] eqn:Hstep; [|done..].
    apply IH. by eapply Inv_step.
Qed.

End invariant.

(** ** Termination *)

Section termination.
Context (k : FrontierClass) (m : Maze) (s g : cell).
Hypothesis Hgoal : goal m = Some g.
Hypothesis Htable : table m.

Lemma size_list_to_set_le (l : list cell) :
  (size (list_to_set l : gset cell) ≤ length l)%nat.
Proof using Type.
  clear Hgoal Htable.
  induction l as [|x l IH].
  - by rewrite list_to_set_nil size_empty.
  - rewrite list_to_set_cons size_union_alt size_singleton /=.
    assert (size (list_to_set l ∖ {[x]} : gset cell)
            ≤ size (list_to_set l : gset cell))%nat
      by (apply subseteq_size; set_solver).
    lia.
Qed.

Lemma size_le_length (X : gset cell) (l : list cell) :
  (∀ x, x ∈ X → x ∈ l) → (size X ≤ length l)%nat.
Proof using Type.
  clear Hgoal Htable.
  intros Hsub. etrans; [|apply size_list_to_set_le].
  apply subseteq_size. set_solver.
Qed.

Lemma elem_of_grid_cells c :
  c ∈ grid_cells m ↔ (0 ≤ c.1 < height m) ∧ (0 ≤ c.2 < width m).
Proof.
  unfold grid_cells. rewrite list_elem_of_bind. split.
  - intros (r & (c' & ->%list_elem_of_singleton & Hc)%list_elem_of_bind & Hr).
    apply elem_of_seqZ in Hr, Hc. simpl. lia.
  - intros [Hr Hc]. exists c.1. split; [|apply elem_of_seqZ; lia].
    apply list_elem_of_bind. exists c.2.
    split; [destruct c; by left|apply elem_of_seqZ; lia].
Qed.

Lemma length_row_cells (r : Z) (cs : list Z) :
  length (cs ≫= λ c, [(r, c)]) = length cs.
Proof.
  induction cs as [|c cs IH]; [done|]. by rewrite bind_cons /= IH.
Qed.

Lemma length_grid_cells :
  length (grid_cells m) = (Z.to_nat (height m) * Z.to_nat (width m))%nat.
Proof.
  unfold grid_cells. rewrite -(length_seqZ 0 (height m)).
  induction (seqZ 0 (height m)) as [|r rs IH]; [done|].
  by rewrite bind_cons length_app IH length_row_cells length_seqZ.
Qed.

(** The explored cells are the start or cells of the window. *)
Lemma explored_bound st :
  Inv m s g st → (size (explored st) ≤ enough m - 1)%nat.
Proof using Type.
  clear Hgoal Htable.
  intros Hinv.
  assert (size (explored st) ≤ length (s :: grid_cells m))%nat as Hle.
  { apply size_le_length. intros c Hc.
    destruct (inv_world _ _ _ _ Hinv c (or_introl Hc)) as [->|(? & ? & _)];
      [by left|].
    right. by apply elem_of_grid_cells. }
  rewrite /= length_grid_cells in Hle. unfold enough. lia.
Qed.

Lemma loop_mono fuel fuel' st r :
  loop k m fuel st = Some r → (fuel ≤ fuel')%nat →
  loop k m fuel' st = Some r.
Proof.
  revert fuel' st. induction fuel as [|fuel IH]; intros fuel' st; [done|].
  intros Hl Hle. destruct fuel' as [|fuel']; [lia|]. simpl in *.
  destruct (step k m st); [|done..]. apply IH; [done|lia].
Qed.

Lemma loop_returns fuel st :
  Inv m s g st → (enough m - 1 - size (explored st) < fuel)%nat →
  ∃ r, loop k m fuel st = Some r.
Proof using Hgoal.
  revert st. induction fuel as [|fuel IH]; intros st Hinv Hfuel; [lia|].
  simpl. destruct (step k m st) as [st'| |] eqn:Hstep; [|by eexists..].
  pose proof (Inv_step _ _ _ _ Hgoal _ _ Hinv Hstep) as Hinv'.
  apply IH; [done|].
  pose proof (explored_bound _ Hinv') as Hbound.
  rewrite -(inv_count _ _ _ _ Hinv) in Hfuel.
  rewrite -(inv_count _ _ _ _ Hinv') in Hbound |- *.
  destruct (pass_shape _ _ _ Hgoal _ _ Hstep)
    as (? & ? & ? & ? & ? & _ & _ & _ & _ & _ & _ & Hnum & _).
  lia.
Qed.

(** The pass in which the loop ends. *)
Lemma loop_last fuel st r :
  loop k m fuel st = Some r →
  ∃ n st', iter k m n st = Some st' ∧
    match r with
    | Solved sol st'' => step k m st' = Returned sol st''
    | Failed e st'' => step k m st' = Raised e st''
    end.
Proof.
  revert st. induction fuel as [|fuel IH]; intros st; [done|]. simpl.
  destruct (step k m st) as [st1|sol st1|e st1] eqn:Hstep.
  - intros (n & st' & Hiter & Hr)%IH. exists (S n), st'.
    by rewrite /= Hstep.
  - intros [= <-]. by exists O, st.
  - intros [= <-]. by exists O, st.
Qed.

End termination.

(** ** How the search ends *)

Section outcome.
Context (k : FrontierClass) (m : Maze) (s g : cell).
Hypothesis Hstart : start m = Some s.
Hypothesis Hgoal : goal m = Some g.
Hypothesis Htable : table m.

(** A walk from the start to a state not yet seen crosses the frontier:
    some waiting node is reached by a strictly shorter walk. *)
Lemma frontier_cut st cells :
  Inv m s g st → walk m s cells → ¬ seen st (walk_end s cells) →
  ∃ n cells', n ∈ frontier st ∧ walk m s cells' ∧
    walk_end s cells' = state n ∧ (length cells' < length cells)%nat.
Proof.
  intros Hinv. induction cells as [|c cells IH] using rev_ind.
  - intros _ Hns. destruct Hns. apply (inv_start _ _ _ _ Hinv).
  - rewrite walk_snoc walk_end_snoc length_app /=.
    intros [Hw [act Hmove]] Hns.
    destruct (decide (walk_end s cells ∈ explored st)) as [Hex|Hex].
    { destruct Hns. by apply (inv_closed _ _ _ _ Hinv _ act _ Hex). }
    destruct (decide (walk_end s cells ∈ states (frontier st))) as [Hfr|Hfr].
    + apply elem_of_states in Hfr as (n & Hn & Heq).
      exists n, cells. split_and!; [done..|lia].
    + destruct IH as (n & cells' & ? & ? & ? & ?); [done| |].
      { by intros [?|?]. }
      exists n, cells'. split_and!; [done..|lia].
Qed.

(** With nothing left in the frontier the explored cells are exactly
    the cells reachable from the start. *)
Lemma exhausted_explored st c :
  Inv m s g st → frontier st = [] → c ∈ explored st ↔ reachable m s c.
Proof.
  intros Hinv Hfr. split; [by apply (inv_reach _ _ _ _ Hinv)|].
  intros (cells & Hw & <-).
  destruct (decide (walk_end s cells ∈ explored st)) as [|Hex]; [done|].
  destruct (frontier_cut st cells Hinv Hw) as (n & _ & Hn & _).
  - intros [?|Hin]; [done|]. rewrite Hfr in Hin. by apply elem_of_nil in Hin.
  - rewrite Hfr in Hn. by apply elem_of_nil in Hn.
Qed.

(** Every run ends, within [enough m] passes, by returning or with
    "no solution" on an empty frontier. *)
Lemma run_ends :
  ∃ r n st,
    (∀ fuel, (enough m ≤ fuel)%nat → solve_with k fuel m = Some r) ∧
    iter k m n (initial s) = Some st ∧ Inv m s g st ∧
    match r with
    | Solved sol st' => step k m st = Returned sol st'
    | Failed e st' => e = NoSolution ∧ st' = st ∧ frontier st = []
    end.
Proof.
  pose proof (Inv_init m s g) as Hinit.
  assert (∃ r, loop k m (enough m) (initial s) = Some r) as [r Hr].
  { eapply loop_returns; [done..|].
    rewrite -(inv_count _ _ _ _ Hinit) /=. unfold enough. lia. }
  destruct (loop_last _ _ _ _ _ Hr) as (n & st & Hiter & Hlast).
  exists r, n, st. split_and!; [|done|by eapply Inv_iter|].
  - intros fuel Hfuel. unfold solve_with, solve_init. rewrite Hstart.
    by eapply loop_mono.
  - destruct r as [sol st'|e st']; [done|].
    by destruct (step_Raised _ _ _ _ _ _ Htable Hgoal Hlast) as (-> & ? & ->).
Qed.

(** The node a returning pass hands to the trace-back. *)
Lemma returned_node st sol st' :
  Inv m s g st → step k m st = Returned sol st' →
  ∃ node, node ∈ frontier st ∧ removed_at k st = Some node ∧
    state node = g ∧ linked m s node ∧
    sol = (node_actions node, node_cells node).
Proof using Hgoal.
  clear Hstart Htable.
  intros Hinv (node & rest & Hrem & Hg & -> & _)%step_Returned.
  destruct (remove_Ok _ _ _ _ Hrem) as (l1 & l2 & Hfr & _).
  assert (node ∈ frontier st) by (rewrite Hfr; set_solver).
  exists node. split_and!; [done| |congruence| |apply solution_of_chain].
  - unfold removed_at. by rewrite Hrem.
  - by apply (inv_linked _ _ _ _ Hinv).
Qed.

End outcome.

(** ** What is added and what is removed *)

Section logs.
Context (k : FrontierClass) (m : Maze) (s g : cell).
Hypothesis Hgoal : goal m = Some g.

(** The nodes added from a state on hold pairwise different states, none
    of them seen before. *)
Lemma additions_fresh n st :
  Inv m s g st →
  NoDup (states (additions k m n st)) ∧
  ∀ c, c ∈ states (additions k m n st) → ¬ seen st c.
Proof.
  revert st. induction n as [|n IH]; intros st Hinv; simpl.
  { split; [constructor|]. intros c Hc. by apply elem_of_nil in Hc. }
  destruct (step k m st) as [st'| |] eqn:Hstep;
    [|split; [constructor|intros c Hc; by apply elem_of_nil in Hc]..].
  pose proof (Inv_step _ _ _ _ Hgoal _ _ Hinv Hstep) as Hinv'.
  destruct (IH st' Hinv') as [Hnd Hnew].
  destruct (pass_shape _ _ _ Hgoal _ _ Hstep)
    as (node & l1 & l2 & ns & kids & Hfr & _ & _ & _ & Hfr' & Hex'
        & _ & _ & -> & Hkids & Hndk & _).
  rewrite states_app. split.
  - apply NoDup_app. split_and!; [done| |done].
    intros c Hc Hc'. apply (Hnew c Hc'). right.
    rewrite Hfr' states_app elem_of_app. by right.
  - intros c [Hc|Hc]%elem_of_app.
    + apply elem_of_states in Hc as (kid & Hkid & <-).
      destruct (Hkids kid Hkid) as (_ & _ & _ & Hex & Hrest).
      rewrite Hex' in Hex. intros [?|Hin]; [set_solver|].
      rewrite Hfr states_app /= in Hin. rewrite states_app in Hrest.
      set_solver.
    + intros Hseen. apply (Hnew c Hc).
      by apply (seen_step k m s g Hgoal st st' c Hinv Hstep).
Qed.

(** The nodes removed from a state on hold pairwise different states,
    none of them explored before. *)
Lemma removals_fresh n st :
  Inv m s g st →
  NoDup (states (removals k m n st)) ∧
  ∀ c, c ∈ states (removals k m n st) → c ∉ explored st.
Proof.
  revert st. induction n as [|n IH]; intros st Hinv; simpl.
  { split; [constructor|]. intros c Hc. by apply elem_of_nil in Hc. }
  unfold removed_at.
  destruct (Frontier.remove k (frontier st)) as [[node rest]|] eqn:Hrem;
    [|split; [constructor|intros c Hc; by apply elem_of_nil in Hc]].
  destruct (remove_Ok _ _ _ _ Hrem) as (l1 & l2 & Hfr & _).
  assert (Hnode : state node ∉ explored st).
  { apply (inv_fresh _ _ _ _ Hinv), elem_of_states. exists node.
    split; [|done]. rewrite Hfr. set_solver. }
  destruct (step k m st) as [st'| |] eqn:Hstep; simpl;
    [|split; [apply NoDup_singleton|by intros c ->%list_elem_of_singleton]..].
  pose proof (Inv_step _ _ _ _ Hgoal _ _ Hinv Hstep) as Hinv'.
  destruct (IH st' Hinv') as [Hnd Hnew].
  destruct (pass_shape _ _ _ Hgoal _ _ Hstep)
    as (node' & _ & _ & _ & _ & _ & _ & _ & _ & _ & Hex' & _ & Hrem' & _).
  unfold removed_at in Hrem'. rewrite Hrem in Hrem'.
  injection Hrem' as <-. split.
  - constructor; [|done]. intros Hin%Hnew. rewrite Hex' in Hin. set_solver.
  - intros c [->|Hin%Hnew]%elem_of_cons; [done|].
    rewrite Hex' in Hin. set_solver.
Qed.

End logs.

(** ** The queue *)

Section queue.
Context (m : Maze) (s g : cell).
Hypothesis Hgoal : goal m = Some g.

Lemma InvQ_init : InvQ m s (initial s).
Proof.
  split; cbn [initial frontier Frontier.add app].
  - intros n cells ->%list_elem_of_singleton _ _. simpl. lia.
  - exists O, [mkNode s None None], []. split_and!; [done| |].
    + by intros n ->%list_elem_of_singleton.
    + intros n Hn. by apply elem_of_nil in Hn.
Qed.

Lemma InvQ_step st st' :
  Inv m s g st → InvQ m s st →
  step QueueFrontier m st = Continue st' → InvQ m s st'.
Proof.
  intros Hinv [Hshort (d & a1 & a2 & Hlay & Hd1 & Hd2)] Hstep.
  destruct (pass_shape _ _ _ Hgoal _ _ Hstep)
    as (node & l1 & l2 & ns & kids & Hfr & Hq & _ & _ & Hfr' & Hex'
        & _ & _ & _ & Hkids & _ & _).
  rewrite (Hq eq_refl) /= in Hfr, Hfr', Hkids. clear Hq l1.
  assert (Hkid_depth : ∀ n, n ∈ kids → depth n = S (depth node)).
  { intros n Hn. by destruct (Hkids n Hn) as (act & -> & _). }
  assert (Hmin : ∀ n, n ∈ frontier st → (depth node ≤ depth n)%nat).
  { rewrite Hfr in Hlay. intros n. rewrite Hfr Hlay.
    destruct a1 as [|n1 a1]; simpl in Hlay.
    - subst a2. intros Hn. rewrite (Hd2 n Hn) (Hd2 node); [by left|done].
    - injection Hlay as <- Hl2. rewrite (Hd1 node); [by left|].
      intros [Hn|Hn]%elem_of_app; [rewrite (Hd1 n Hn)|rewrite (Hd2 n Hn)];
        lia. }
  split.
  - intros n cells. rewrite Hfr' elem_of_app. intros [Hn|Hn] Hw Hend.
    + apply Hshort; [|done..]. rewrite Hfr. by right.
    + rewrite (Hkid_depth n Hn).
      destruct (Hkids n Hn) as (_ & _ & _ & Hex & Hrest).
      destruct (frontier_cut m s g st cells Hinv Hw)
        as (n' & cells' & Hn' & Hw' & Hend' & Hlen).
      { rewrite Hend. rewrite Hex' in Hex. intros [?|Hin]; [set_solver|].
        rewrite Hfr /= in Hin. set_solver. }
      pose proof (Hshort n' cells' Hn' Hw' Hend').
      pose proof (Hmin n' Hn'). lia.
  - rewrite Hfr in Hlay. destruct a1 as [|n1 a1]; simpl in Hlay.
    + subst a2. exists (S d), l2, kids. rewrite Hfr'. split_and!; [done| |].
      * intros n Hn. apply Hd2. by right.
      * intros n Hn. rewrite (Hkid_depth n Hn) (Hd2 node); [by left|done].
    + injection Hlay as <- ->. exists d, a1, (a2 ++ kids).
      rewrite Hfr' -app_assoc. split_and!; [done| |].
      * intros n Hn. apply Hd1. by right.
      * intros n [Hn|Hn]%elem_of_app; [by apply Hd2|].
        rewrite (Hkid_depth n Hn) (Hd1 node); [by left|done].
Qed.

Lemma InvQ_iter n st st' :
  Inv m s g st → InvQ m s st →
  iter QueueFrontier m n st = Some st' → InvQ m s st'.
Proof.
  revert st. induction n as [|n IH]; intros st Hinv Hq; simpl.
  - by intros [= <-].
  - destruct (step QueueFrontier m st) as [st1| |] eqn:Hstep; [|done..].
    apply IH; [by eapply Inv_step|by eapply InvQ_step].
Qed.

End queue.

(** ** The search engine *)

Lemma walk_pairs (m : Maze) (a : cell) (cells : list cell) (i : nat) (x y : cell) :
  walk m a cells → cells !! i = Some x → cells !! S i = Some y →
  ∃ act, move m act x y.
Proof.
  revert a i. induction cells as [|c cells IH]; intros a i; [done|].
  intros [_ Hw]. destruct i as [|i]; simpl.
  - intros [= ->]. destruct cells as [|c' cells]; [done|].
    intros [= ->]. by destruct Hw.
  - by apply (IH c).
Qed.

Lemma Grid_ends (m : Maze) (s g : cell) :
  Grid m s g → start m = Some s ∧ goal m = Some g ∧ table m.
Proof. by intros []. Qed.

(** C3. On every grid the search ends within [enough m] passes of the
    loop, for either frontier class ([solve] is the class
    [StackFrontier]): it returns a solution or raises "no solution", and
    over the whole run no state is added to the frontier twice and no
    state is removed from it twice. *)
Theorem solve_terminates (k : FrontierClass) (m : Maze) (s g : cell) :
  Grid m s g →
  ∃ r,
    (∀ fuel, (enough m ≤ fuel)%nat → solve_with k fuel m = Some r) ∧
    ((∃ sol st, r = Solved sol st) ∨ (∃ st, r = Failed NoSolution st)) ∧
    ∀ n,
      NoDup (states (frontier (initial s) ++ additions k m n (initial s))) ∧
      NoDup (states (removals k m n (initial s))).
Proof.
  intros (Hs & Hg & Ht)%Grid_ends.
  destruct (run_ends k m s g Hs Hg Ht) as (r & n & st & Hrun & _ & _ & Hr).
  exists r. split_and!; [done| |].
  - destruct r as [sol st'|e st']; [left; by eauto|right].
    destruct Hr as (-> & _). by eauto.
  - intros n'. pose proof (Inv_init m s g) as Hinit. split.
    + destruct (additions_fresh k m s g Hg n' (initial s)) as [Hnd Hnew];
        [by apply Hinit|].
      rewrite states_app. apply NoDup_app. split_and!; [|  |done].
      * apply NoDup_singleton.
      * intros c Hc Hc'. apply (Hnew c Hc'). by right.
    + by apply (removals_fresh k m s g Hg n' (initial s)), Hinit.
Qed.

(** C6. In every run, after every pass of the loop no two nodes of the
    frontier hold the same state and no state of the frontier is in the
    explored set; the states of the nodes removed over a run are pairwise
    different. *)
Theorem frontier_states_distinct (k : FrontierClass) (m : Maze) (s : cell) :
  start m = Some s →
  (∀ n st, iter k m n (initial s) = Some st →
     NoDup (states (frontier st)) ∧
     ∀ c, c ∈ states (frontier st) → c ∉ explored st) ∧
  (∀ n, NoDup (states (removals k m n (initial s)))).
Proof.
  intros Hs. destruct (goal m) as [g|] eqn:Hg.
  - pose proof (Inv_init m s g) as Hinit. split.
    + intros n st Hiter.
      assert (Inv m s g st) as Hinv by by eapply Inv_iter.
      split; [apply (inv_nodup _ _ _ _ Hinv)|apply (inv_fresh _ _ _ _ Hinv)].
    + intros n. by apply (removals_fresh k m s g Hg n (initial s)).
  - assert (Hstop : ∀ st st', step k m st ≠ Continue st').
    { intros st st' (? & ? & gl & ? & _ & Hgl & _)%step_Continue.
      congruence. }
    split.
    + intros [|n] st; simpl.
      * intros [= <-]. split; [apply NoDup_singleton|]. intros c _.
        apply not_elem_of_empty.
      * destruct (step k m (initial s)) eqn:Hstep; [|done..].
        by apply Hstop in Hstep.
    + intros [|n]; simpl; [constructor|].
      destruct (removed_at k (initial s)); [|constructor].
      destruct (step k m (initial s)) eqn:Hstep;
        [by apply Hstop in Hstep|apply NoDup_singleton..].
Qed.

(** C2. On every grid with a walk from start to goal the search, with
    either frontier class, returns a solution: every cell follows from
    the one before it by a move of [neighbors] bearing the recorded
    action, the first cell is a neighbor of the start and not the start,
    the last cell is the goal, and there are as many actions as cells. *)
Theorem solve_finds_valid_path (k : FrontierClass) (m : Maze) (s g : cell) :
  Grid m s g → reachable m s g →
  ∃ actions cells st,
    (∀ fuel, (enough m ≤ fuel)%nat →
       solve_with k fuel m = Some (Solved (actions, cells) st)) ∧
    labelled m s actions cells ∧
    (∀ i x y, cells !! i = Some x → cells !! S i = Some y →
       ∃ act, move m act x y) ∧
    (∃ c cs, cells = c :: cs ∧ c ≠ s ∧ ∃ act, move m act s c) ∧
    last cells = Some g ∧
    length actions = length cells.
Proof.
  intros HG Hreach. pose proof (grid_distinct _ _ _ HG) as Hsg.
  destruct (Grid_ends _ _ _ HG) as (Hs & Hg & Ht).
  destruct (run_ends k m s g Hs Hg Ht) as (r & n & st & Hrun & _ & Hinv & Hr).
  destruct r as [sol st'|e st'].
  - destruct (returned_node k m s g Hg st sol st' Hinv Hr)
      as (node & _ & _ & Hstate & Hlink & ->).
    destruct (linked_labelled m s node Hlink) as [Hlab Hend].
    destruct (labelled_walk m s _ _ Hlab) as [Hw Hlen].
    exists (node_actions node), (node_cells node), st'.
    split_and!; [done|done| | | |done].
    + intros i x y. by apply (walk_pairs m s).
    + destruct (node_cells node) as [|c cs] eqn:Hcells.
      { rewrite walk_end_nil in Hend. congruence. }
      exists c, cs. destruct Hw as [[act Hmove] _].
      split_and!; [done| |by exists act]. by eapply move_other.
    + rewrite Hstate in Hend. unfold walk_end in Hend.
      destruct (last (node_cells node)) eqn:Hl; simpl in Hend; [by subst|].
      apply last_None in Hl. congruence.
  - destruct Hr as (_ & _ & Hfr). exfalso.
    apply (inv_goal _ _ _ _ Hinv).
    by apply (exhausted_explored m s g st g Hinv Hfr).
Qed.

(** C4. On every grid whose goal cannot be reached from the start the
    search, with either frontier class, raises "no solution", and the
    exploration counter then equals the number of cells reachable from
    the start, the start among them. *)
Theorem unreachable_goal_no_solution (k : FrontierClass) (m : Maze)
    (s g : cell) :
  Grid m s g → ¬ reachable m s g →
  ∃ st,
    (∀ fuel, (enough m ≤ fuel)%nat →
       solve_with k fuel m = Some (Failed NoSolution st)) ∧
    ∃ R : gset cell,
      (∀ c, c ∈ R ↔ reachable m s c) ∧ s ∈ R ∧ num_explored st = size R.
Proof.
  intros (Hs & Hg & Ht)%Grid_ends Hnot.
  destruct (run_ends k m s g Hs Hg Ht) as (r & n & st & Hrun & _ & Hinv & Hr).
  destruct r as [sol st'|e st'].
  - destruct (returned_node k m s g Hg st sol st' Hinv Hr)
      as (node & _ & _ & Hstate & Hlink & _).
    destruct Hnot. rewrite -Hstate. by eapply linked_reachable.
  - destruct Hr as (-> & -> & Hfr). exists st. split; [done|].
    exists (explored st). split_and!.
    + intros c. by apply (exhausted_explored m s g).
    + apply (exhausted_explored m s g st s Hinv Hfr). by exists [].
    + apply (inv_count _ _ _ _ Hinv).
Qed.

(** C1, as the code has it. [solve] takes no frontier class: it is the
    search with a [StackFrontier]. The same search with a [QueueFrontier]
    returns, on every grid with a walk from start to goal, a solution
    whose number of moves is the least number of moves from start to
    goal. *)
Theorem queue_search_minimal (m : Maze) (s g : cell) :
  Grid m s g → reachable m s g →
  (∀ fuel, solve fuel m = solve_with StackFrontier fuel m) ∧
  ∃ actions cells st,
    (∀ fuel, (enough m ≤ fuel)%nat →
       solve_with QueueFrontier fuel m = Some (Solved (actions, cells) st)) ∧
    min_moves m s g (length actions).
Proof.
  intros (Hs & Hg & Ht)%Grid_ends Hreach. split; [done|].
  destruct (run_ends QueueFrontier m s g Hs Hg Ht)
    as (r & n & st & Hrun & Hiter & Hinv & Hr).
  destruct r as [sol st'|e st'].
  - destruct (returned_node _ m s g Hg st sol st' Hinv Hr)
      as (node & Hnode & _ & Hstate & Hlink & ->).
    destruct (linked_labelled m s node Hlink) as [Hlab Hend].
    destruct (labelled_walk m s _ _ Hlab) as [Hw Hlen].
    exists (node_actions node), (node_cells node), st'.
    split; [done|]. rewrite Hlen. split.
    + exists (node_cells node). split_and!; [done|congruence|done].
    + intros cells Hwalk Hcells. rewrite length_node_cells.
      assert (InvQ m s st) as Hq.
      { eapply (InvQ_iter m s g Hg n (initial s));
          [apply Inv_init|apply InvQ_init|done]. }
      apply (invq_short _ _ _ Hq node cells); [done..|congruence].
  - destruct Hr as (_ & _ & Hfr). exfalso.
    apply (inv_goal _ _ _ _ Hinv).
    by apply (exhausted_explored m s g st g Hinv Hfr).
Qed.

(** ** The claims on the fixtures *)

(** Goals about a fixture are settled by evaluation. *)
Ltac fixture_grid text :=
  apply (Maze_init_Grid text); vm_compute; reflexivity.

Ltac fixture_move :=
  eexists; split; [vm_compute; reflexivity|repeat constructor].

Lemma neighbors_filters_moves_witness :
  neighbors ring (0, 0) = Ok [("down"%string, (1, 0)); ("right"%string, (0, 1))].
Proof.
  rewrite (neighbors_filters_moves ring 0 0); [|reflexivity].
  split; [reflexivity|repeat constructor].
Defined.

Lemma short_row_padded_open_witness :
  ∃ m, Maze_init short_text = Ok m ∧
    ∀ (i j : nat) (line : str),
      splitlines short_text !! i = Some line →
      (length line ≤ j)%nat → Z.of_nat j < width m →
      ∃ row, walls m !! i = Some row ∧ row !! j = Some false.
Proof. apply (short_row_padded_open short_text); reflexivity. Defined.

Lemma solve_terminates_witness :
  ∃ r,
    (∀ fuel, (enough ring ≤ fuel)%nat → solve fuel ring = Some r) ∧
    ((∃ sol st, r = Solved sol st) ∨ (∃ st, r = Failed NoSolution st)) ∧
    ∀ n,
      NoDup (states (frontier (initial (0, 0))
                     ++ additions StackFrontier ring n (initial (0, 0)))) ∧
      NoDup (states (removals StackFrontier ring n (initial (0, 0)))).
Proof.
  apply (solve_terminates StackFrontier ring (0, 0) (2, 0)).
  fixture_grid ring_text.
Defined.

Lemma frontier_states_distinct_witness :
  (∀ n st, iter StackFrontier ring n (initial (0, 0)) = Some st →
     NoDup (states (frontier st)) ∧
     ∀ c, c ∈ states (frontier st) → c ∉ explored st) ∧
  (∀ n, NoDup (states (removals StackFrontier ring n (initial (0, 0))))).
Proof.
  apply (frontier_states_distinct StackFrontier ring (0, 0)). reflexivity.
Defined.

Lemma solve_finds_valid_path_witness :
  ∃ actions cells st,
    (∀ fuel, (enough ring ≤ fuel)%nat →
       solve fuel ring = Some (Solved (actions, cells) st)) ∧
    labelled ring (0, 0) actions cells ∧
    (∀ i x y, cells !! i = Some x → cells !! S i = Some y →
       ∃ act, move ring act x y) ∧
    (∃ c cs, cells = c :: cs ∧ c ≠ (0, 0) ∧ ∃ act, move ring act (0, 0) c) ∧
    last cells = Some (2, 0) ∧
    length actions = length cells.
Proof.
  apply (solve_finds_valid_path StackFrontier ring (0, 0) (2, 0)).
  - fixture_grid ring_text.
  - exists [(1, 0); (2, 0)]. split; [|reflexivity].
    repeat split; exists "down"%string; fixture_move.
Defined.

Lemma unreachable_goal_no_solution_witness :
  ∃ st,
    (∀ fuel, (enough blocked ≤ fuel)%nat →
       solve fuel blocked = Some (Failed NoSolution st)) ∧
    ∃ R : gset cell,
      (∀ c, c ∈ R ↔ reachable blocked (0, 0) c) ∧ (0, 0) ∈ R ∧
      num_explored st = size R.
Proof.
  apply (unreachable_goal_no_solution StackFrontier blocked (0, 0) (0, 2)).
  - fixture_grid blocked_text.
  - intros (cells & Hw & Hend). destruct cells as [|c cells].
    + vm_compute in Hend. discriminate.
    + destruct Hw as [[act (ns & Hns & Hin)] _].
      vm_compute in Hns. injection Hns as <-. inversion Hin.
Defined.

(** C1 as stated fails on [solve]: on the ring it returns six moves where
    two lead from the start to the goal. *)
Lemma solve_ring_not_minimal :
  Grid ring (0, 0) (2, 0) ∧ reachable ring (0, 0) (2, 0) ∧
  ∃ actions cells st,
    solve (enough ring) ring = Some (Solved (actions, cells) st) ∧
    length actions = 6%nat ∧
    ¬ min_moves ring (0, 0) (2, 0) (length actions).
Proof.
  assert (reachable ring (0, 0) (2, 0) ∧
          ∃ cells, walk ring (0, 0) cells ∧ walk_end (0, 0) cells = (2, 0) ∧
                   length cells = 2%nat) as [Hreach (cells & Hw & Hend & Hlen)].
  { assert (walk ring (0, 0) [(1, 0); (2, 0)]) as Hw
      by (repeat split; exists "down"%string; fixture_move).
    split; by exists [(1, 0); (2, 0)]. }
  split; [fixture_grid ring_text|]. split; [done|].
  do 3 eexists. split; [vm_compute; reflexivity|]. split; [reflexivity|].
  intros [_ Hmin]. specialize (Hmin cells Hw Hend). simpl in Hmin. lia.
Qed.

Lemma queue_search_minimal_witness :
  (∀ fuel, solve fuel ring = solve_with StackFrontier fuel ring) ∧
  ∃ actions cells st,
    (∀ fuel, (enough ring ≤ fuel)%nat →
       solve_with QueueFrontier fuel ring
       = Some (Solved (actions, cells) st)) ∧
    min_moves ring (0, 0) (2, 0) (length actions).
Proof.
  apply (queue_search_minimal ring (0, 0) (2, 0)).
  - fixture_grid ring_text.
  - exists [(1, 0); (2, 0)]. split; [|reflexivity].
    repeat split; exists "down"%string; fixture_move.
Defined.

(** * Further properties of the code *)

(** ** Frontiers *)

(** X1. Stack discipline: [remove] after [add] gives back the node just
    added and the frontier as it was before; after [add(n1); add(n2);
    add(n3)] the calls of [remove] yield [n3], [n2], [n1]. *)
Theorem stack_remove_last_added :
  (∀ (fr : list Node) (node : Node),
     Frontier.remove StackFrontier (Frontier.add fr node) = Ok (node, fr)) ∧
  (∀ n1 n2 n3 : Node,
     let fr0 := Frontier.add (Frontier.add (Frontier.add [] n1) n2) n3 in
     ∃ fr1 fr2 fr3,
       Frontier.remove StackFrontier fr0 = Ok (n3, fr1) ∧
       Frontier.remove StackFrontier fr1 = Ok (n2, fr2) ∧
       Frontier.remove StackFrontier fr2 = Ok (n1, fr3) ∧
       fr3 = []).
Proof.
  split; [apply remove_stack|].
  intros n1 n2 n3. exists [n1; n2], [n1], []. by rewrite /= !remove_stack.
Qed.

(** X2. [remove] of either class raises exactly on the empty frontier,
    and then "empty frontier": the [pop] and the index [0] behind the
    emptiness test never raise. *)
Theorem remove_raises_iff_empty (k : FrontierClass) (fr : list Node) :
  ((∃ e, Frontier.remove k fr = Raise e) ↔ fr = []) ∧
  (∀ e, Frontier.remove k fr = Raise e → e = EmptyFrontier).
Proof.
  destruct fr as [|n fr].
  - split; [split; [done|intros _; exists EmptyFrontier; by destruct k]|].
    intros e. destruct k; by intros [= <-].
  - destruct (remove_nonempty k (n :: fr)) as (node & rest & Hrem); [done|].
    rewrite Hrem. split; [split; [by intros [e ?]|done]|done].
Qed.

(** X3. A [remove] that returns takes exactly one node out of the
    frontier: the frontier was the returned node together with the nodes
    left, and [contains_state] held for a state exactly when it is the
    state of the returned node or still holds afterwards. *)
Theorem remove_takes_one (k : FrontierClass) (fr rest : list Node)
    (node : Node) :
  Frontier.remove k fr = Ok (node, rest) →
  fr ≡ₚ node :: rest ∧
  length fr = S (length rest) ∧
  ∀ st, Frontier.contains_state fr st = true ↔
        state node = st ∨ Frontier.contains_state rest st = true.
Proof.
  intros (l1 & l2 & -> & -> & _)%remove_Ok. split_and!.
  - by rewrite Permutation_middle.
  - rewrite !length_app /=. lia.
  - intros st. rewrite !contains_state_true !states_app /=.
    set_unfold. naive_solver.
Qed.

(** X4. [add] puts the node at the end and changes nothing else: the
    frontier is not empty afterwards, it contains the state of the new
    node, and it contains any other state exactly when it did before. *)
Theorem add_contains_state (fr : list Node) (node : Node) :
  Frontier.empty (Frontier.add fr node) = false ∧
  Frontier.contains_state (Frontier.add fr node) (state node) = true ∧
  ∀ st, st ≠ state node →
    Frontier.contains_state (Frontier.add fr node) st
    = Frontier.contains_state fr st.
Proof.
  split_and!.
  - apply empty_false. unfold Frontier.add. by destruct fr.
  - apply contains_state_true. unfold Frontier.add.
    rewrite states_app /=. set_solver.
  - intros st Hne. apply eq_true_iff_eq.
    rewrite !contains_state_true. unfold Frontier.add.
    rewrite states_app /=. set_solver.
Qed.

(** ** neighbors and walks *)

Section neighbors_more.
Context (m : Maze).

Lemma move_candidate act a b : move m act a b → (act, b) ∈ candidates a.
Proof.
  intros (ns & Hns & Hin). apply neighbors_Ok in Hns. subst ns.
  by apply list_elem_of_filter in Hin as [_ ?].
Qed.

Lemma move_table act a b :
  table m → move m act a b ↔ (act, b) ∈ candidates a ∧ open_cell m b.
Proof.
  intros Ht. unfold move. split.
  - intros (ns & Hns & Hin). apply neighbors_Ok in Hns. subst ns.
    apply list_elem_of_filter in Hin. tauto.
  - intros [Hc Ho]. eexists. split; [by apply neighbors_table|].
    by apply list_elem_of_filter.
Qed.

(** A move is undone by the opposite move when its origin is open. *)
Lemma move_back act a b :
  table m → open_cell m a → move m act a b → ∃ act', move m act' b a.
Proof.
  intros Ht Ha [Hc _]%move_table; [|done].
  destruct a as [r c], b as [r' c']. simpl in Hc. set_unfold.
  destruct Hc as [H|[H|[H|[H|[]]]]]; injection H as -> -> ->.
  - exists "down"%string. apply move_table; [done|]. split; [|done].
    simpl. replace (r - 1 + 1) with r by lia. set_solver.
  - exists "up"%string. apply move_table; [done|]. split; [|done].
    simpl. replace (r + 1 - 1) with r by lia. set_solver.
  - exists "right"%string. apply move_table; [done|]. split; [|done].
    simpl. replace (c - 1 + 1) with c by lia. set_solver.
  - exists "left"%string. apply move_table; [done|]. split; [|done].
    simpl. replace (c + 1 - 1) with c by lia. set_solver.
Qed.

Lemma walk_app a l1 l2 :
  walk m a (l1 ++ l2) ↔ walk m a l1 ∧ walk m (walk_end a l1) l2.
Proof.
  revert a. induction l1 as [|c l1 IH]; intros a; simpl.
  - rewrite walk_end_nil. tauto.
  - rewrite IH walk_end_cons. tauto.
Qed.

Lemma walk_end_app a l1 l2 :
  walk_end a (l1 ++ l2) = walk_end (walk_end a l1) l2.
Proof.
  revert a. induction l1 as [|c l1 IH]; intros a; simpl; [done|].
  by rewrite !walk_end_cons IH.
Qed.

Lemma reachable_trans a b c :
  reachable m a b → reachable m b c → reachable m a c.
Proof.
  intros (l1 & Hw1 & <-) (l2 & Hw2 & <-). exists (l1 ++ l2).
  by rewrite walk_app walk_end_app.
Qed.

Lemma walk_end_open a cells :
  open_cell m a → walk m a cells → open_cell m (walk_end a cells).
Proof.
  revert a. induction cells as [|c cells IH]; intros a Ha; simpl; [done|].
  intros [[act Hmove] Hw]. rewrite walk_end_cons. apply IH; [|done].
  by eapply move_open.
Qed.

Lemma reachable_back a b :
  table m → open_cell m a → reachable m a b → reachable m b a.
Proof.
  intros Ht Ha (cells & Hw & <-).
  induction cells as [|c cells IH] using rev_ind; [by exists []|].
  apply walk_snoc in Hw as [Hw [act Hmove]]. rewrite walk_end_snoc.
  destruct (move_back act _ _ Ht (walk_end_open a cells Ha Hw) Hmove)
    as [act' Hback].
  apply (reachable_trans _ (walk_end a cells)); [|by apply IH].
  exists [walk_end a cells]. split; [|done]. split; [by exists act'|done].
Qed.

End neighbors_more.

(** X5. What [neighbors] returns holds at most four pairs, with pairwise
    different destinations; every destination is an open cell of the
    window exactly one step away in a row or in a column, is the cell
    the action names, and is never the cell itself. *)
Theorem neighbors_one_step (m : Maze) (st : cell)
    (ns : list (string * cell)) :
  neighbors m st = Ok ns →
  (length ns ≤ 4)%nat ∧ NoDup (ns.*2) ∧
  ∀ act c, (act, c) ∈ ns →
    open_cell m c ∧ c ≠ st ∧
    Z.abs (c.1 - st.1) + Z.abs (c.2 - st.2) = 1 ∧
    (act, c) ∈ [("up"%string, (st.1 - 1, st.2));
                ("down"%string, (st.1 + 1, st.2));
                ("left"%string, (st.1, st.2 - 1));
                ("right"%string, (st.1, st.2 + 1))].
Proof.
  intros ->%neighbors_Ok. destruct st as [r c]. split_and!.
  - etrans; [apply length_filter|done].
  - assert (NoDup ((candidates (r, c)).*2)) as Hnd.
    { simpl. repeat constructor; set_unfold; intros H;
        repeat destruct H as [H|H]; try done; injection H; lia. }
    eapply sublist_NoDup; [exact Hnd|].
    apply fmap_sublist, sublist_filter.
  - intros act d [Ho Hin]%list_elem_of_filter. simpl in *.
    split_and!; [done| | |done];
      set_unfold; destruct Hin as [H|[H|[H|[H|[]]]]];
      injection H as -> ->; simpl; try lia; intros [=]; lia.
Qed.

(** X6. In a maze with a full obstacle table moves can be retraced: from
    an open cell [a], whatever is reachable from [a] reaches [a] back. In
    particular start and goal of a grid reach each other or neither
    does. *)
Theorem reachable_symmetric (m : Maze) (a b : cell) :
  table m → open_cell m a → open_cell m b →
  reachable m a b ↔ reachable m b a.
Proof.
  intros Ht Ha Hb. split; by apply reachable_back.
Qed.

(** ** The search, further *)

Section chains.
Context (k : FrontierClass) (m : Maze) (s g : cell).
Hypothesis Hstart : start m = Some s.
Hypothesis Hgoal : goal m = Some g.

Lemma ancestors_cells node :
  linked m s node → s :: node_cells node = ancestors node ++ [state node].
Proof using Type.
  clear Hstart Hgoal.
  induction node as [st a|st p a IH] using Node_parent_ind; simpl.
  - by intros ->.
  - intros [Hl _]. by rewrite app_comm_cons IH.
Qed.

Lemma InvA_init : InvA (initial s).
Proof using Type.
  clear Hstart Hgoal.
  intros n ->%list_elem_of_singleton. simpl. split; [constructor|].
  intros c Hc. by apply elem_of_nil in Hc.
Qed.

Lemma InvA_step st st' :
  Inv m s g st → InvA st → step k m st = Continue st' → InvA st'.
Proof using Hgoal.
  clear Hstart. intros Hinv HA Hstep.
  destruct (pass_shape _ _ _ Hgoal _ _ Hstep)
    as (node & l1 & l2 & ns & kids & Hfr & _ & _ & _ & Hfr' & Hex'
        & _ & _ & _ & Hkids & _ & _).
  assert (Hnode : node ∈ frontier st) by (rewrite Hfr; set_solver).
  intros n. rewrite Hfr' Hex' elem_of_app. intros [Hn|Hn].
  - destruct (HA n) as [Hnd Hsub]; [rewrite Hfr; set_solver|].
    split; [done|]. intros c Hc. apply elem_of_union_r. by apply Hsub.
  - destruct (Hkids n Hn) as (act & -> & _). simpl.
    destruct (HA node Hnode) as [Hnd Hsub]. split.
    + apply NoDup_app. split_and!; [done| |apply NoDup_singleton].
      intros c Hc ->%list_elem_of_singleton.
      apply (inv_fresh _ _ _ _ Hinv (state node)); [|by apply Hsub].
      apply elem_of_states. by exists node.
    + intros c [Hc| ->%list_elem_of_singleton]%elem_of_app.
      * apply elem_of_union_r. by apply Hsub.
      * apply elem_of_union_l. by apply elem_of_singleton.
Qed.

Lemma InvA_iter n st st' :
  Inv m s g st → InvA st → iter k m n st = Some st' → InvA st'.
Proof using Hgoal.
  clear Hstart. revert st. induction n as [|n IH]; intros st Hinv HA; simpl.
  - by intros [= <-].
  - destruct (step k m st) as [st1| |] eqn:Hstep; [|done..].
    apply IH; [by eapply Inv_step|by eapply InvA_step].
Qed.

(** A run that returned, spelled out: the state [st] of the last pass,
    the goal node taken from its frontier, and what is left behind. *)
Lemma solved_run fuel sol st' :
  solve_with k fuel m = Some (Solved sol st') →
  ∃ n st node,
    iter k m n (initial s) = Some st ∧
    Inv m s g st ∧ InvA st ∧
    node ∈ frontier st ∧ removed_at k st = Some node ∧
    state node = g ∧ linked m s node ∧
    sol = (node_actions node, node_cells node) ∧
    explored st' = explored st ∧
    num_explored st' = S (num_explored st).
Proof using Hstart Hgoal.
  unfold solve_with, solve_init. rewrite Hstart.
  intros (n & st & Hiter & Hlast)%loop_last.
  pose proof (Inv_init m s g) as Hinit.
  assert (Inv m s g st) as Hinv by by eapply Inv_iter.
  assert (InvA st) as HA by (eapply InvA_iter; [exact Hinit|apply InvA_init|done]).
  destruct (returned_node k m s g Hgoal st sol st' Hinv Hlast)
    as (node & Hnode & Hrem & Hstate & Hlink & ->).
  apply step_Returned in Hlast as (node' & rest & _ & _ & _ & ->).
  by exists n, st, node.
Qed.

(** A run that raised on a maze with a goal and a full table. *)
Lemma failed_run fuel e st' :
  table m → solve_with k fuel m = Some (Failed e st') →
  e = NoSolution ∧ frontier st' = [] ∧ Inv m s g st'.
Proof using Hstart Hgoal.
  intros Ht. unfold solve_with, solve_init. rewrite Hstart.
  intros (n & st & Hiter & Hlast)%loop_last.
  pose proof (Inv_init m s g) as Hinit.
  assert (Inv m s g st) as Hinv by by eapply Inv_iter.
  by destruct (step_Raised _ _ _ _ _ _ Ht Hgoal Hlast) as (-> & ? & ->).
Qed.

End chains.

(** X7. On every grid, with either frontier class, the search returns a
    solution exactly when the goal can be reached from the start, and
    raises "no solution" exactly when it cannot. *)
Theorem solve_solved_iff_reachable (k : FrontierClass) (m : Maze)
    (s g : cell) :
  Grid m s g →
  ((∃ sol st, ∀ fuel, (enough m ≤ fuel)%nat →
      solve_with k fuel m = Some (Solved sol st)) ↔ reachable m s g) ∧
  ((∃ st, ∀ fuel, (enough m ≤ fuel)%nat →
      solve_with k fuel m = Some (Failed NoSolution st)) ↔ ¬ reachable m s g).
Proof.
  intros (Hs & Hg & Ht)%Grid_ends.
  destruct (run_ends k m s g Hs Hg Ht) as (r & n & st & Hrun & _ & Hinv & Hr).
  pose proof (Hrun (enough m) (le_n _)) as Hrun0.
  assert (Hcase : (∃ sol st', r = Solved sol st' ∧ reachable m s g) ∨
                  (∃ st', r = Failed NoSolution st' ∧ ¬ reachable m s g)).
  { destruct r as [sol st'|e st'].
    - left. exists sol, st'. split; [done|].
      destruct (returned_node k m s g Hg st sol st' Hinv Hr)
        as (node & _ & _ & <- & Hlink & _).
      by eapply linked_reachable.
    - right. destruct Hr as (-> & -> & Hfr). exists st. split; [done|].
      intros Hreach. apply (inv_goal _ _ _ _ Hinv).
      by apply (exhausted_explored m s g st g Hinv Hfr). }
  destruct Hcase as [(sol & st' & -> & Hreach)|(st' & -> & Hnot)].
  - split; split; try done.
    + intros _. by exists sol, st'.
    + intros [st2 H2]. specialize (H2 _ (le_n _)). congruence.
  - split; split; try done.
    + intros (sol & st2 & H2). specialize (H2 _ (le_n _)). congruence.
    + intros _. by exists st'.
Qed.

(** The path of a returned solution: no cell twice, all of them open. *)
Lemma solved_cells (k : FrontierClass) (m : Maze) (s g : cell)
    (fuel : nat) (actions : list (option string)) (cells : list cell)
    (st : SearchState) :
  Grid m s g →
  solve_with k fuel m = Some (Solved (actions, cells) st) →
  NoDup (s :: cells) ∧ ∀ c, c ∈ cells → open_cell m c.
Proof.
  intros HG Hrun. destruct (Grid_ends _ _ _ HG) as (Hs & Hg & Ht).
  destruct (solved_run k m s g Hs Hg _ _ _ Hrun)
    as (n & st0 & node & _ & Hinv & HA & Hnode & _ & Hstate & Hlink & Hsol & _).
  injection Hsol as -> ->.
  destruct (HA node Hnode) as [Hnd Hsub]. split.
  - rewrite (ancestors_cells m s node Hlink).
    apply NoDup_app. split_and!; [done| |apply NoDup_singleton].
    intros c Hc ->%list_elem_of_singleton.
    apply (inv_fresh _ _ _ _ Hinv (state node)); [|by apply Hsub].
    apply elem_of_states. by exists node.
  - destruct (linked_labelled m s node Hlink) as [Hlab _].
    apply labelled_walk in Hlab as [Hw _]. revert Hw.
    generalize (node_cells node) s. clear.
    intros cells. induction cells as [|c cells IH]; intros a Hw d Hd.
    + by apply elem_of_nil in Hd.
    + destruct Hw as [[act Hmove] Hw].
      apply elem_of_cons in Hd as [->|Hd]; [by eapply move_open|].
      by apply (IH c).
Qed.


(** X8. The cells of a returned solution are pairwise different open
    cells and the start is not among them: the path never visits a cell
    twice and never comes back to the start. *)
Theorem solution_simple_path (k : FrontierClass) (m : Maze) (s g : cell)
    (fuel : nat) (actions : list (option string)) (cells : list cell)
    (st : SearchState) :
  Grid m s g →
  solve_with k fuel m = Some (Solved (actions, cells) st) →
  NoDup (s :: cells) ∧ ∀ c, c ∈ cells → open_cell m c.
Proof. apply solved_cells. Qed.

(** X9. After a returned solution the diagnostics fit the path: the
    counter is one more than the number of explored cells, the goal is
    not explored, the start and every cell of the path but the goal are
    explored, and every explored cell is an open cell reachable from the
    start. *)
Theorem solved_diagnostics (k : FrontierClass) (m : Maze) (s g : cell)
    (fuel : nat) (actions : list (option string)) (cells : list cell)
    (st : SearchState) :
  Grid m s g →
  solve_with k fuel m = Some (Solved (actions, cells) st) →
  num_explored st = S (size (explored st)) ∧
  (g ∉ explored st) ∧ (s ∈ explored st) ∧
  (∀ c, c ∈ cells → c = g ∨ c ∈ explored st) ∧
  (∀ c, c ∈ explored st → open_cell m c ∧ reachable m s c).
Proof.
  intros HG Hrun. destruct (Grid_ends _ _ _ HG) as (Hs & Hg & Ht).
  destruct (solved_run k m s g Hs Hg _ _ _ Hrun)
    as (n & st0 & node & _ & Hinv & HA & Hnode & _ & Hstate & Hlink & Hsol
        & Hex & Hnum).
  injection Hsol as -> ->. rewrite Hex Hnum.
  destruct (HA node Hnode) as [_ Hsub].
  pose proof (ancestors_cells m s node Hlink) as Hchain.
  rewrite Hstate in Hchain. split_and!.
  - by rewrite (inv_count _ _ _ _ Hinv).
  - apply (inv_goal _ _ _ _ Hinv).
  - apply Hsub. destruct (ancestors node) as [|a l]; simpl in Hchain.
    + injection Hchain as Hsg _. by destruct (grid_distinct _ _ _ HG).
    + injection Hchain as -> _. by left.
  - intros c Hc.
    assert (c ∈ ancestors node ++ [g]) as [?| ->%list_elem_of_singleton]%elem_of_app
      by (rewrite -Hchain; by right); [right; by apply Hsub|by left].
  - intros c Hc. split; [|by apply (inv_reach _ _ _ _ Hinv)].
    destruct (inv_world _ _ _ _ Hinv c (or_introl Hc)) as [->|?]; [|done].
    apply (grid_start_open _ _ _ HG).
Qed.

(** X10. Whatever way a run ends on a grid, the exploration counter is at
    least one and at most the number of cells of the window. *)
Theorem num_explored_bounded (k : FrontierClass) (m : Maze) (s g : cell)
    (fuel : nat) (r : Run) :
  Grid m s g → solve_with k fuel m = Some r →
  (1 ≤ num_explored (run_state r)
   ≤ Z.to_nat (height m) * Z.to_nat (width m))%nat.
Proof.
  intros HG Hrun. destruct (Grid_ends _ _ _ HG) as (Hs & Hg & Ht).
  assert (Hin : ∀ st c, Inv m s g st → c = g ∨ c ∈ explored st →
                        c ∈ grid_cells m).
  { intros st c Hinv Hc. apply elem_of_grid_cells.
    assert (open_cell m c) as (? & ? & _); [|done].
    destruct Hc as [->|Hc]; [apply (grid_goal_open _ _ _ HG)|].
    destruct (inv_world _ _ _ _ Hinv c (or_introl Hc)) as [->|?]; [|done].
    apply (grid_start_open _ _ _ HG). }
  rewrite -length_grid_cells. destruct r as [sol st'|e st']; simpl.
  - destruct (solved_run k m s g Hs Hg _ _ _ Hrun)
      as (n & st0 & node & _ & Hinv & _ & _ & _ & _ & _ & _ & Hex & ->).
    split; [lia|]. rewrite (inv_count _ _ _ _ Hinv).
    replace (S (size (explored st0))) with (size ({[g]} ∪ explored st0)).
    + apply size_le_length. intros c Hc. apply (Hin st0); [done|].
      set_solver.
    + rewrite size_union; [|by rewrite size_singleton].
      pose proof (inv_goal _ _ _ _ Hinv). set_solver.
  - destruct (failed_run k m s g Hs Hg _ _ _ Ht Hrun) as (_ & Hfr & Hinv).
    rewrite (inv_count _ _ _ _ Hinv). split.
    + destruct (inv_start _ _ _ _ Hinv) as [Hex|Hs'].
      * assert (size (explored st') ≠ 0%nat)
          by (rewrite size_non_empty_iff; set_solver).
        lia.
      * rewrite Hfr in Hs'. by apply elem_of_nil in Hs'.
    + apply size_le_length. intros c Hc. apply (Hin st'); [done|by right].
Qed.

(** X11. On a grid a solution returned with a [QueueFrontier] never has
    more moves than a solution returned by [solve] with its
    [StackFrontier]. *)
Theorem queue_not_longer_than_stack (m : Maze) (s g : cell)
    (fuel fuel' : nat) (qactions sactions : list (option string))
    (qcells scells : list cell) (qst sst : SearchState) :
  Grid m s g →
  solve_with QueueFrontier fuel m = Some (Solved (qactions, qcells) qst) →
  solve fuel' m = Some (Solved (sactions, scells) sst) →
  (length qactions ≤ length sactions)%nat.
Proof.
  intros (Hs & Hg & Ht)%Grid_ends Hq Hst.
  destruct (solved_run _ m s g Hs Hg _ _ _ Hq)
    as (n & st & node & Hiter & Hinv & _ & Hnode & _ & Hstate & Hlink & Hsol & _).
  destruct (solved_run _ m s g Hs Hg _ _ _ Hst)
    as (_ & _ & snode & _ & _ & _ & _ & _ & Hsstate & Hslink & Hssol & _).
  injection Hsol as -> ->. injection Hssol as -> ->.
  destruct (linked_labelled m s node Hlink) as [[_ ->]%labelled_walk _].
  destruct (linked_labelled m s snode Hslink) as [[Hw ->]%labelled_walk Hend].
  assert (InvQ m s st) as HQ.
  { eapply (InvQ_iter m s g Hg n (initial s));
      [apply Inv_init|apply InvQ_init|done]. }
  rewrite length_node_cells.
  apply (invq_short _ _ _ HQ node (node_cells snode)); [done..|congruence].
Qed.

(** ** The constructor, further *)

Section count_facts.

Lemma count_cons c x s :
  count c (x :: s)
  = ((if bool_decide (x = c) then 1 else 0) + count c s)%nat.
Proof.
  unfold count. rewrite filter_cons.
  case_decide; [by rewrite bool_decide_true|by rewrite bool_decide_false].
Qed.

Lemma count_app c s1 s2 : count c (s1 ++ s2) = (count c s1 + count c s2)%nat.
Proof. unfold count. by rewrite filter_app length_app. Qed.

Lemma count_reverse c s : count c (reverse s) = count c s.
Proof.
  induction s as [|x s IH]; [done|].
  rewrite reverse_cons count_app IH !count_cons count_nil. lia.
Qed.

Lemma linebreak_ne c x : is_linebreak c = false → is_linebreak x = true → x ≠ c.
Proof. intros Hc Hx ->. congruence. Qed.

(** [splitlines] drops line boundaries only: every other character
    occurs in the lines as often as in the text. *)
Lemma count_splitlines_from c n cur s :
  is_linebreak c = false → (length s ≤ n)%nat →
  sum_list (count c <$> splitlines_from cur s)
  = (count c cur + count c s)%nat.
Proof.
  intros Hc. revert cur s. induction n as [|n IH]; intros cur s Hn.
  - destruct s; [|simpl in Hn; lia]. destruct cur; [done|].
    rewrite /= count_reverse count_nil. lia.
  - destruct s as [|x s]; [destruct cur; [done|];
                            rewrite /= count_reverse count_nil; lia|].
    simpl in Hn. simpl. destruct (is_linebreak x) eqn:Hx.
    + pose proof (linebreak_ne c x Hc Hx) as Hne.
      rewrite count_cons (bool_decide_false (x = c)) // fmap_cons.
      rewrite count_reverse /=. f_equal.
      destruct s as [|x' s]; [done|].
      destruct (bool_decide (x = 13%N) && bool_decide (x' = 10%N)) eqn:Hcr.
      * apply andb_true_iff in Hcr as [_ ->%bool_decide_eq_true].
        assert (10%N ≠ c) by by apply (linebreak_ne c).
        rewrite IH /=; [simpl in Hn; lia|].
        by rewrite count_cons (bool_decide_false (10%N = c)).
      * rewrite IH /=; [simpl in Hn; lia|]. done.
    + rewrite IH; [lia|]. rewrite !count_cons. lia.
Qed.

Lemma count_splitlines c s :
  is_linebreak c = false →
  sum_list (count c <$> splitlines s) = count c s.
Proof.
  intros Hc. unfold splitlines.
  by rewrite (count_splitlines_from c (length s)).
Qed.

Lemma count_lookup c (l : str) j : l !! j = Some c → (1 ≤ count c l)%nat.
Proof.
  revert j. induction l as [|x l IH]; intros j; [done|].
  rewrite count_cons. destruct j as [|j]; simpl.
  - intros [= ->]. rewrite bool_decide_true //. lia.
  - intros Hj%IH. lia.
Qed.

Lemma count_lookup_two c (l : str) j j' :
  j ≠ j' → l !! j = Some c → l !! j' = Some c → (2 ≤ count c l)%nat.
Proof.
  revert j j'. induction l as [|x l IH]; intros j j' Hne; [done|].
  rewrite count_cons. destruct j as [|j], j' as [|j']; simpl; try done.
  - intros [= ->] Hj'%count_lookup. rewrite bool_decide_true //. lia.
  - intros Hj%count_lookup [= ->]. rewrite bool_decide_true //. lia.
  - intros Hj Hj'. assert (2 ≤ count c l)%nat by (apply (IH j j'); [lia|done..]).
    lia.
Qed.

Lemma count_pos c (l : str) : (0 < count c l)%nat → ∃ j, l !! j = Some c.
Proof.
  induction l as [|x l IH]; [rewrite count_nil; lia|].
  rewrite count_cons. case_bool_decide as Hx.
  - intros _. exists O. by rewrite Hx.
  - intros [j Hj]%IH. by exists (S j).
Qed.

Lemma sum_lookup (f : str → nat) (ls : list str) i l :
  ls !! i = Some l → (f l ≤ sum_list (f <$> ls))%nat.
Proof.
  revert i. induction ls as [|x ls IH]; intros i; [done|].
  rewrite fmap_cons. destruct i as [|i]; simpl.
  - intros [= ->]. lia.
  - intros Hi%IH. lia.
Qed.

Lemma sum_lookup_two (f : str → nat) (ls : list str) i i' l l' :
  i ≠ i' → ls !! i = Some l → ls !! i' = Some l' →
  (f l + f l' ≤ sum_list (f <$> ls))%nat.
Proof.
  revert i i'. induction ls as [|x ls IH]; intros i i' Hne; [done|].
  rewrite fmap_cons. destruct i as [|i], i' as [|i']; simpl; try done.
  - intros [= ->] Hi'. apply (sum_lookup f) in Hi'. lia.
  - intros Hi [= ->]. apply (sum_lookup f) in Hi. lia.
  - intros Hi Hi'.
    assert (f l + f l' ≤ sum_list (f <$> ls))%nat
      by (apply (IH i i'); [lia|done..]).
    lia.
Qed.

Lemma sum_pos (f : str → nat) (ls : list str) :
  (0 < sum_list (f <$> ls))%nat → ∃ i l, ls !! i = Some l ∧ (0 < f l)%nat.
Proof.
  induction ls as [|x ls IH]; [simpl; lia|]. rewrite fmap_cons /=.
  destruct (f x) eqn:Hx.
  - intros (i & l & ? & ?)%IH. by exists (S i), l.
  - intros _. exists O, x. split; [done|lia].
Qed.

(** A character that occurs once in the text and is no line boundary sits
    at one position of the lines. *)
Lemma marker_position c contents :
  is_linebreak c = false → count c contents = 1%nat →
  ∃ i j, splitlines contents !! i ≫= (.!! j) = Some c ∧
    ∀ i' j', splitlines contents !! i' ≫= (.!! j') = Some c →
             i' = i ∧ j' = j.
Proof.
  intros Hc Hcount. rewrite -(count_splitlines c contents Hc) in Hcount.
  destruct (sum_pos (count c) (splitlines contents)) as (i & l & Hi & Hl);
    [lia|].
  apply count_pos in Hl as [j Hj]. exists i, j.
  split; [by rewrite Hi|]. intros i' j' Hij'.
  destruct (splitlines contents !! i') as [l'|] eqn:Hi'; [|done].
  simpl in Hij'. destruct (decide (i' = i)) as [->|Hne].
  - split; [done|]. destruct (decide (j' = j)) as [|Hnej]; [done|].
    assert (l' = l) as -> by congruence.
    pose proof (count_lookup_two c l j' j Hnej Hij' Hj).
    pose proof (sum_lookup (count c) _ _ _ Hi). lia.
  - pose proof (count_lookup c l j Hj). pose proof (count_lookup c l' j' Hij').
    pose proof (sum_lookup_two (count c) _ _ _ _ _ Hne Hi' Hi). lia.
Qed.

End count_facts.

Section markers.

Lemma init_cell_start_found lines i js acc :
  (is_Some acc.1.1 ∨ ∃ j, j ∈ js ∧ lines !! i ≫= (.!! j) = Some chr_A) →
  is_Some (foldl (λ a j, init_cell lines i j a) acc js).1.1.
Proof.
  revert acc. induction js as [|j js IH]; intros [[st gl] row]; simpl.
  - intros [?|(j & Hj & _)]; [done|]. by apply elem_of_nil in Hj.
  - intros Hor. apply IH.
    destruct (decide (lines !! i ≫= (.!! j) = Some chr_A)) as [Hch|Hch].
    + left. unfold init_cell. rewrite Hch /=. by eexists.
    + destruct Hor as [Hsome|(j' & [->|Hj']%elem_of_cons & Hch')];
        [|done|right; by exists j'].
      left. unfold init_cell.
      destruct (lines !! i ≫= (.!! j)) as [ch|]; simpl; [|done].
      repeat case_bool_decide; simpl; try done; by subst ch.
Qed.

Lemma init_row_start_found lines w rows acc :
  (is_Some acc.1.1 ∨
   ∃ i j, i ∈ rows ∧ (j < w)%nat ∧ lines !! i ≫= (.!! j) = Some chr_A) →
  is_Some (foldl (λ a i, init_row lines w i a) acc rows).1.1.
Proof.
  revert acc. induction rows as [|i rows IH]; intros [[st gl] ws]; simpl.
  - intros [?|(i & j & Hi & _)]; [done|]. by apply elem_of_nil in Hi.
  - intros Hor. apply IH. unfold init_row.
    pose proof (init_cell_start_found lines i (seq 0 w) (st, gl, [])) as Hrow.
    destruct (foldl _ (st, gl, []) (seq 0 w)) as [[st' gl'] row].
    simpl in *.
    destruct Hor as [Hsome|(i' & j & [->|Hi']%elem_of_cons & Hj & Hch)].
    + left. apply Hrow. by left.
    + left. apply Hrow. right. exists j. split; [|done].
      apply elem_of_seq. lia.
    + right. by exists i', j.
Qed.

Lemma init_cell_goal_found lines i js acc :
  (is_Some acc.1.2 ∨ ∃ j, j ∈ js ∧ lines !! i ≫= (.!! j) = Some chr_B) →
  is_Some (foldl (λ a j, init_cell lines i j a) acc js).1.2.
Proof.
  revert acc. induction js as [|j js IH]; intros [[st gl] row]; simpl.
  - intros [?|(j & Hj & _)]; [done|]. by apply elem_of_nil in Hj.
  - intros Hor. apply IH.
    destruct (decide (lines !! i ≫= (.!! j) = Some chr_B)) as [Hch|Hch].
    + left. unfold init_cell. rewrite Hch /=. by eexists.
    + destruct Hor as [Hsome|(j' & [->|Hj']%elem_of_cons & Hch')];
        [|done|right; by exists j'].
      left. unfold init_cell.
      destruct (lines !! i ≫= (.!! j)) as [ch|]; simpl; [|done].
      repeat case_bool_decide; simpl; try done; by subst ch.
Qed.

Lemma init_row_goal_found lines w rows acc :
  (is_Some acc.1.2 ∨
   ∃ i j, i ∈ rows ∧ (j < w)%nat ∧ lines !! i ≫= (.!! j) = Some chr_B) →
  is_Some (foldl (λ a i, init_row lines w i a) acc rows).1.2.
Proof.
  revert acc. induction rows as [|i rows IH]; intros [[st gl] ws]; simpl.
  - intros [?|(i & j & Hi & _)]; [done|]. by apply elem_of_nil in Hi.
  - intros Hor. apply IH. unfold init_row.
    pose proof (init_cell_goal_found lines i (seq 0 w) (st, gl, [])) as Hrow.
    destruct (foldl _ (st, gl, []) (seq 0 w)) as [[st' gl'] row].
    simpl in *.
    destruct Hor as [Hsome|(i' & j & [->|Hi']%elem_of_cons & Hj & Hch)].
    + left. apply Hrow. by left.
    + left. apply Hrow. right. exists j. split; [|done].
      apply elem_of_seq. lia.
    + right. by exists i', j.
Qed.

(** Where the constructor finds the two markers: the one position of
    each in the lines, recorded when its column is inside the window. *)
Lemma markers_window contents m :
  Maze_init contents = Ok m →
  ∃ ia ja ib jb : nat,
    splitlines contents !! ia ≫= (.!! ja) = Some chr_A ∧
    splitlines contents !! ib ≫= (.!! jb) = Some chr_B ∧
    start m = (if bool_decide (Z.of_nat ja < width m)
               then Some (Z.of_nat ia, Z.of_nat ja) else None) ∧
    goal m = (if bool_decide (Z.of_nat jb < width m)
              then Some (Z.of_nat ib, Z.of_nat jb) else None).
Proof.
  intros Hm.
  destruct (Maze_init_Ok _ _ Hm)
    as (line0 & HA & HB & H0 & Hh & Hw & _ & Hstart & Hgoal).
  destruct (marker_position chr_A contents eq_refl HA) as (ia & ja & Ha & Hua).
  destruct (marker_position chr_B contents eq_refl HB) as (ib & jb & Hb & Hub).
  exists ia, ja, ib, jb. split; [done|]. split; [done|].
  assert (Hia : (ia < length (splitlines contents))%nat).
  { destruct (splitlines contents !! ia) eqn:E; [|done].
    by eapply lookup_lt_Some. }
  assert (Hib : (ib < length (splitlines contents))%nat).
  { destruct (splitlines contents !! ib) eqn:E; [|done].
    by eapply lookup_lt_Some. }
  revert Hm Hstart Hgoal. unfold Maze_init.
  rewrite bool_decide_false; [lia|]. rewrite bool_decide_false; [lia|].
  cbv zeta. rewrite H0.
  pose proof (init_row_start_found (splitlines contents) (length line0)
                (seq 0 (length (splitlines contents))) (None, None, [])) as Hfs.
  pose proof (init_row_goal_found (splitlines contents) (length line0)
                (seq 0 (length (splitlines contents))) (None, None, [])) as Hfg.
  destruct (foldl _ (None, None, []) _) as [[st gl] ws]. simpl in Hfs, Hfg.
  intros [= <-] Hstart Hgoal. simpl in *. split.
  - case_bool_decide as Hin.
    + destruct Hfs as [c Hc].
      { right. exists ia, ja. split; [apply elem_of_seq; lia|].
        split; [lia|done]. }
      subst st. destruct (Hstart c eq_refl) as (i & j & -> & _ & _ & Hij).
      by destruct (Hua i j Hij) as [-> ->].
    + destruct st as [c|]; [|done].
      destruct (Hstart c eq_refl) as (i & j & -> & _ & Hj & Hij).
      destruct (Hua i j Hij) as [-> ->]. lia.
  - case_bool_decide as Hin.
    + destruct Hfg as [c Hc].
      { right. exists ib, jb. split; [apply elem_of_seq; lia|].
        split; [lia|done]. }
      subst gl. destruct (Hgoal c eq_refl) as (i & j & -> & _ & _ & Hij).
      by destruct (Hub i j Hij) as [-> ->].
    + destruct gl as [c|]; [|done].
      destruct (Hgoal c eq_refl) as (i & j & -> & _ & Hj & Hij).
      destruct (Hub i j Hij) as [-> ->]. lia.
Qed.

End markers.

(** X12. The constructor records as start the one position of "A" in the
    lines of the text when its column is shorter than the first row is
    long, and leaves the attribute unassigned otherwise; the same for the
    goal and "B". *)
Theorem markers_recorded_in_window (contents : str) (m : Maze) :
  Maze_init contents = Ok m →
  ∃ ia ja ib jb : nat,
    splitlines contents !! ia ≫= (.!! ja) = Some chr_A ∧
    splitlines contents !! ib ≫= (.!! jb) = Some chr_B ∧
    start m = (if bool_decide (Z.of_nat ja < width m)
               then Some (Z.of_nat ia, Z.of_nat ja) else None) ∧
    goal m = (if bool_decide (Z.of_nat jb < width m)
              then Some (Z.of_nat ib, Z.of_nat jb) else None).
Proof. apply markers_window. Qed.

(** X13. A constructed maze has as many rows as the text has lines, at
    least one, and the width of the first line; its obstacle table is
    full, so [neighbors] returns for every state, also one outside the
    window. *)
Theorem constructed_table (contents : str) (m : Maze) :
  Maze_init contents = Ok m →
  height m = Z.of_nat (length (splitlines contents)) ∧ 1 ≤ height m ∧
  (∃ line0, head (splitlines contents) = Some line0 ∧
            width m = Z.of_nat (length line0)) ∧
  table m ∧
  ∀ st, ∃ ns, neighbors m st = Ok ns.
Proof.
  intros Hm.
  destruct (Maze_init_Ok _ _ Hm)
    as (line0 & _ & _ & H0 & Hh & Hw & Hwalls & _).
  assert (table m) as Ht.
  { split.
    - rewrite Hwalls Hh length_fmap length_seq. lia.
    - rewrite Hwalls Hw. apply Forall_fmap, Forall_forall. intros x _.
      simpl. rewrite length_fmap length_seq. lia. }
  split_and!; [done| | |done|].
  - apply lookup_lt_Some in H0. rewrite Hh. unfold str in *. lia.
  - exists line0. by rewrite head_lookup.
  - intros st. eexists. by apply neighbors_table.
Qed.

(** X14. In a constructed maze the entry of the obstacle table at a
    position of the window is a wall exactly when the source row has a
    character there and it is none of "A", "B" and the blank. *)
Theorem walls_from_text (contents : str) (m : Maze) (i j : nat) :
  Maze_init contents = Ok m →
  Z.of_nat i < height m → Z.of_nat j < width m →
  ∃ b, walls m !! i ≫= (.!! j) = Some b ∧
    (b = true ↔
     ∃ ch, splitlines contents !! i ≫= (.!! j) = Some ch ∧
           ch ≠ chr_A ∧ ch ≠ chr_B ∧ ch ≠ chr_space).
Proof.
  intros Hm Hi Hj.
  destruct (Maze_init_Ok _ _ Hm)
    as (line0 & _ & _ & _ & Hh & Hw & Hwalls & _).
  exists (cell_wall (splitlines contents) i j). split.
  - rewrite Hwalls. apply table_lookup; unfold str in *; lia.
  - unfold cell_wall, char_is_wall.
    destruct (splitlines contents !! i ≫= (.!! j)) as [ch|].
    + repeat case_bool_decide; split; try done.
      * by intros (? & [= <-] & ? & ? & ?).
      * by intros (? & [= <-] & ? & ? & ?).
      * by intros (? & [= <-] & ? & ? & ?).
      * intros _. by exists ch.
    + split; [done|]. by intros (? & ? & _).
Qed.

(** X15. A constructed maze in which both markers were recorded is a
    grid of the data model: start and goal are different cells inside
    the window, neither is a wall, the table is full and both dimensions
    are positive. *)
Theorem constructed_grid (contents : str) (m : Maze) (s g : cell) :
  Maze_init contents = Ok m → start m = Some s → goal m = Some g →
  Grid m s g.
Proof. apply Maze_init_Grid. Qed.

(** X16. When the "A" or the "B" of the text lies at a column beyond the
    length of the first row the construction still returns, but [solve]
    on that maze raises [AttributeError] as soon as the loop is entered,
    with either frontier class. *)
Theorem marker_outside_window (contents : str) (m : Maze) (i j : nat)
    (line : str) (ch : N) (k : FrontierClass) (fuel : nat) :
  Maze_init contents = Ok m →
  splitlines contents !! i = Some line → line !! j = Some ch →
  ch = chr_A ∨ ch = chr_B → width m ≤ Z.of_nat j →
  ∃ st, solve_with k (S fuel) m = Some (Failed AttributeError st).
Proof.
  intros Hm Hline Hch Hmark Hout.
  destruct (markers_window _ _ Hm)
    as (ia & ja & ib & jb & Ha & Hb & Hstart & Hgoal).
  destruct (Maze_init_Ok _ _ Hm) as (_ & HA & HB & _).
  assert (Hpos : splitlines contents !! i ≫= (.!! j) = Some ch)
    by by rewrite Hline.
  assert (start m = None ∨ goal m = None) as Hnone.
  { destruct Hmark as [->| ->].
    - left. destruct (marker_position chr_A contents eq_refl HA)
        as (i0 & j0 & _ & Hu).
      destruct (Hu _ _ Ha) as [-> ->]. destruct (Hu _ _ Hpos) as [-> ->].
      rewrite Hstart bool_decide_false //. lia.
    - right. destruct (marker_position chr_B contents eq_refl HB)
        as (i0 & j0 & _ & Hu).
      destruct (Hu _ _ Hb) as [-> ->]. destruct (Hu _ _ Hpos) as [-> ->].
      rewrite Hgoal bool_decide_false //. lia. }
  unfold solve_with, solve_init.
  destruct (start m) as [s|] eqn:Hs; [|by eexists].
  destruct Hnone as [|Hg]; [done|].
  simpl. unfold step. simpl.
  destruct k; simpl; rewrite Hg; by eexists.
Qed.

(** ** print *)

Section print_facts.
Context (m : Maze) (s g : cell) (solution : option (list cell)).
Hypothesis Hs : start m = Some s.
Hypothesis Hg : goal m = Some g.

Lemma print_cell_ok i j col :
  print_cell m solution i j col = Ok (char_of s g solution i j col).
Proof using Hs Hg.
  unfold print_cell, char_of, on_path. rewrite Hs Hg /=.
  destruct col; [done|]. do 2 (case_bool_decide; [done|]).
  destruct solution as [cells|]; [|done]. by destruct (bool_decide _).
Qed.

Lemma print_row_ok i j row out :
  print_row m solution i j row out
  = (out ++ imap (λ j', char_of s g solution i (j + j')) row, None).
Proof using Hs Hg.
  revert j out. induction row as [|col row IH]; intros j out; simpl.
  - by rewrite app_nil_r.
  - rewrite print_cell_ok IH -app_assoc /= Nat.add_0_r. do 3 f_equal.
    apply imap_ext. intros j' ? _. simpl. f_equal. lia.
Qed.

Lemma print_rows_ok i rows out :
  print_rows m solution i rows out
  = (out ++ unlines (imap (λ i' row,
                             imap (char_of s g solution (i + i')) row) rows),
     None).
Proof using Hs Hg.
  revert i out. induction rows as [|row rows IH]; intros i out; simpl.
  - by rewrite app_nil_r.
  - rewrite print_row_ok IH /unlines /= -!app_assoc Nat.add_0_r.
    assert (imap (λ i' row0, imap (char_of s g solution (S (i + i'))) row0)
              rows
            = imap ((λ i' row0, imap (char_of s g solution (i + i')) row0) ∘ S)
                rows) as ->; [|done].
    apply imap_ext. intros i' ? _. simpl.
    by replace (S (i + i'))%nat with (i + S i')%nat by lia.
Qed.

End print_facts.

Lemma Maze_print_ok (m : Maze) (s g : cell) (sol : option Solution) :
  start m = Some s → goal m = Some g →
  Maze_print m sol
  = (chr_newline :: unlines (picture_rows m s g (snd <$> sol))
       ++ [chr_newline], None).
Proof.
  intros Hs Hg. unfold Maze_print.
  replace (match sol with Some s0 => Some s0.2 | None => None end)
    with (snd <$> sol) by by destruct sol.
  by rewrite (print_rows_ok m s g _ Hs Hg).
Qed.

Lemma char_of_line s g solution i j col :
  is_linebreak (char_of s g solution i j col) = false.
Proof.
  unfold char_of. destruct col; [done|].
  repeat case_bool_decide; try done. by destruct (on_path _ _).
Qed.

Section lines_facts.

Lemma splitlines_line cur r tail :
  Forall (λ c, is_linebreak c = false) r →
  splitlines_from cur (r ++ chr_newline :: tail)
  = (reverse cur ++ r) :: splitlines_from [] tail.
Proof.
  intros Hr. revert cur. induction Hr as [|c r Hc _ IH]; intros cur; simpl.
  - rewrite app_nil_r. by destruct tail.
  - by rewrite Hc IH reverse_cons -app_assoc.
Qed.

Lemma splitlines_unlines (rows : list str) tail :
  Forall (Forall (λ c, is_linebreak c = false)) rows →
  splitlines_from [] (unlines rows ++ tail) = rows ++ splitlines_from [] tail.
Proof.
  intros Hrows. induction Hrows as [|r rows Hr _ IH]; [done|].
  rewrite /unlines bind_cons -!app_assoc /=.
  rewrite (splitlines_line [] r _ Hr). by rewrite -/(unlines rows) IH.
Qed.

Lemma picture_rows_lines m s g solution :
  Forall (Forall (λ c, is_linebreak c = false)) (picture_rows m s g solution).
Proof.
  apply Forall_forall. intros r [i Hi]%list_elem_of_lookup.
  apply Forall_forall. intros c [j Hj]%list_elem_of_lookup.
  unfold picture_rows in Hi. rewrite list_lookup_imap in Hi.
  destruct (walls m !! i) as [row|]; [|done]. injection Hi as <-.
  rewrite list_lookup_imap in Hj.
  destruct (row !! j) as [col|]; [|done]. injection Hj as <-.
  apply char_of_line.
Qed.

Lemma picture_rows_lookup m s g solution i j :
  picture_rows m s g solution !! i ≫= (.!! j)
  = char_of s g solution i j <$> (walls m !! i ≫= (.!! j)).
Proof.
  unfold picture_rows. rewrite list_lookup_imap.
  destruct (walls m !! i) as [row|]; [|done]. simpl.
  by rewrite list_lookup_imap.
Qed.

Lemma splitlines_printed rows :
  Forall (Forall (λ c, is_linebreak c = false)) rows →
  splitlines (chr_newline :: unlines rows ++ [chr_newline]) = [] :: rows ++ [[]].
Proof.
  intros Hrows. unfold splitlines. simpl.
  destruct (unlines rows ++ [chr_newline]) as [|c l] eqn:Hl.
  { by destruct (unlines rows). }
  rewrite -Hl. f_equal. by rewrite splitlines_unlines.
Qed.

End lines_facts.

(** X17. On a maze with start and goal assigned [print] never raises. It
    writes an empty line, one line per row of the table and one more
    empty line; the line of a row holds one character per entry: the
    block for a wall, "A" at the start, "B" at the goal, "*" at the other
    cells of the solution, and a blank elsewhere. *)
Theorem print_lines (m : Maze) (s g : cell) (sol : option Solution) :
  start m = Some s → goal m = Some g →
  ∃ out,
    Maze_print m sol = (out, None) ∧
    length (splitlines out) = (length (walls m) + 2)%nat ∧
    splitlines out !! 0%nat = Some [] ∧
    splitlines out !! S (length (walls m)) = Some [] ∧
    ∀ i j : nat,
      splitlines out !! S i ≫= (.!! j)
      = (λ col : bool,
           if col then chr_block
           else if bool_decide ((Z.of_nat i, Z.of_nat j) = s) then chr_A
           else if bool_decide ((Z.of_nat i, Z.of_nat j) = g) then chr_B
           else if match sol with
                   | Some (_, cells) =>
                       bool_decide ((Z.of_nat i, Z.of_nat j) ∈ cells)
                   | None => false
                   end
           then chr_star
           else chr_space) <$> (walls m !! i ≫= (.!! j)).
Proof.
  intros Hs Hg. eexists. split; [by apply Maze_print_ok|].
  rewrite splitlines_printed; [apply picture_rows_lines|].
  assert (length (picture_rows m s g (snd <$> sol)) = length (walls m)) as Hlen
    by apply length_imap.
  split_and!.
  - rewrite /= length_app Hlen /=. lia.
  - done.
  - by rewrite /= lookup_app_r Hlen // Nat.sub_diag.
  - intros i j. simpl.
    destruct (decide (i < length (walls m))%nat) as [Hi|Hi].
    + rewrite lookup_app_l; [by rewrite Hlen|].
      rewrite picture_rows_lookup.
      destruct (walls m !! i ≫= (.!! j)) as [col|]; [|done]. simpl.
      unfold char_of, on_path. destruct col; [done|].
      do 2 (case_bool_decide; [done|]). by destruct sol as [[??]|].
    + rewrite (lookup_ge_None_2 (walls m) i); [lia|]. simpl.
      destruct (decide (i = length (walls m))) as [->|Hne].
      * by rewrite lookup_app_r Hlen // Nat.sub_diag.
      * rewrite lookup_ge_None_2 //. rewrite length_app Hlen /=. lia.
Qed.

Section unique_count.

Lemma count_zero c (l : str) : (∀ j, l !! j ≠ Some c) → count c l = 0%nat.
Proof.
  induction l as [|x l IH]; intros Hno; [done|].
  rewrite count_cons bool_decide_false.
  { intros ->. by apply (Hno O). }
  rewrite IH //. intros j. apply (Hno (S j)).
Qed.

Lemma count_unique c (l : str) j0 :
  l !! j0 = Some c → (∀ j, l !! j = Some c → j = j0) → count c l = 1%nat.
Proof.
  revert j0. induction l as [|x l IH]; intros j0; [done|].
  rewrite count_cons. destruct j0 as [|j0]; simpl.
  - intros [= ->] Hu. rewrite bool_decide_true // count_zero //.
    intros j Hj. by specialize (Hu (S j) Hj).
  - intros Hj0 Hu. rewrite bool_decide_false.
    { intros ->. by specialize (Hu O eq_refl). }
    rewrite (IH j0) //. intros j Hj. specialize (Hu (S j) Hj). lia.
Qed.

Lemma sum_zero (f : str → nat) (ls : list str) :
  (∀ i l, ls !! i = Some l → f l = 0%nat) → sum_list (f <$> ls) = 0%nat.
Proof.
  induction ls as [|x ls IH]; intros Hz; [done|].
  rewrite fmap_cons /= (Hz O x) // IH //. intros i l. apply (Hz (S i)).
Qed.

Lemma sum_unique (f : str → nat) (ls : list str) i0 l0 :
  ls !! i0 = Some l0 → f l0 = 1%nat →
  (∀ i l, ls !! i = Some l → i ≠ i0 → f l = 0%nat) →
  sum_list (f <$> ls) = 1%nat.
Proof.
  revert i0. induction ls as [|x ls IH]; intros i0; [done|].
  rewrite fmap_cons /=. destruct i0 as [|i0]; simpl.
  - intros [= ->] -> Hz. rewrite sum_zero //.
    intros i l Hl. by apply (Hz (S i)).
  - intros Hl0 H1 Hz. rewrite (Hz O x) // (IH i0) //.
    intros i l Hl Hne. apply (Hz (S i)); [done|lia].
Qed.

(** A character at exactly one position of the rows occurs once. *)
Lemma unique_position_count c (rows : list str) i0 j0 :
  rows !! i0 ≫= (.!! j0) = Some c →
  (∀ i j, rows !! i ≫= (.!! j) = Some c → i = i0 ∧ j = j0) →
  sum_list (count c <$> rows) = 1%nat.
Proof.
  intros H0 Hu. destruct (rows !! i0) as [l0|] eqn:Hl0; [|done].
  simpl in H0. apply (sum_unique _ _ i0 l0); [done| |].
  - apply (count_unique _ _ j0); [done|]. intros j Hj.
    by destruct (Hu i0 j) as [_ ?]; [rewrite Hl0|].
  - intros i l Hl Hne. apply count_zero. intros j Hj.
    by destruct (Hu i j) as [? _]; [rewrite Hl|].
Qed.

End unique_count.

Lemma Maze_eq (m1 m2 : Maze) :
  height m1 = height m2 → width m1 = width m2 → walls m1 = walls m2 →
  start m1 = start m2 → goal m1 = goal m2 → m1 = m2.
Proof. destruct m1, m2. simpl. by intros -> -> -> -> ->. Qed.

Section round_trip.
Context (m : Maze) (s g : cell).
Hypothesis HG : Grid m s g.

Lemma picture_A i j :
  picture_rows m s g None !! i ≫= (.!! j) = Some chr_A ↔
  (Z.of_nat i, Z.of_nat j) = s.
Proof using HG.
  rewrite picture_rows_lookup.
  destruct (grid_start_open _ _ _ HG) as (Hr & Hc & Hw). split.
  - destruct (walls m !! i ≫= (.!! j)) as [[]|]; [done| |done].
    simpl. unfold char_of. intros [= Hch]. revert Hch.
    by repeat case_bool_decide.
  - intros <-. simpl in Hw. rewrite !Nat2Z.id in Hw. rewrite Hw /=.
    unfold char_of. by rewrite bool_decide_true.
Qed.

Lemma picture_B i j :
  picture_rows m s g None !! i ≫= (.!! j) = Some chr_B ↔
  (Z.of_nat i, Z.of_nat j) = g.
Proof using HG.
  rewrite picture_rows_lookup.
  destruct (grid_goal_open _ _ _ HG) as (Hr & Hc & Hw).
  pose proof (grid_distinct _ _ _ HG) as Hne. split.
  - destruct (walls m !! i ≫= (.!! j)) as [[]|]; [done| |done].
    simpl. unfold char_of. intros [= Hch]. revert Hch.
    by repeat case_bool_decide.
  - intros <-. simpl in Hw. rewrite !Nat2Z.id in Hw. rewrite Hw /=.
    unfold char_of. rewrite bool_decide_false; [done|].
    by rewrite bool_decide_true.
Qed.

Lemma picture_marker_count c (p : cell) :
  (∀ i j, picture_rows m s g None !! i ≫= (.!! j) = Some c ↔
          (Z.of_nat i, Z.of_nat j) = p) →
  0 ≤ p.1 → 0 ≤ p.2 →
  sum_list (count c <$> picture_rows m s g None) = 1%nat.
Proof using Type.
  clear HG. intros Hiff H1 H2.
  apply (unique_position_count c _ (Z.to_nat p.1) (Z.to_nat p.2)).
  - apply Hiff. destruct p. simpl in *. f_equal; lia.
  - intros i j Hp%Hiff. subst p. simpl. lia.
Qed.

Lemma picture_walls i j :
  (i < length (walls m))%nat → (j < Z.to_nat (width m))%nat →
  walls m !! i ≫= (.!! j)
  = Some (cell_wall (picture_rows m s g None) i j).
Proof using HG.
  intros Hi Hj. destruct (grid_table _ _ _ HG) as [_ Hcols].
  destruct (lookup_lt_is_Some_2 _ _ Hi) as [row Hrow].
  rewrite Forall_forall in Hcols.
  assert (length row = Z.to_nat (width m)) as Hlen
    by (apply Hcols; by eapply list_elem_of_lookup_2).
  destruct (lookup_lt_is_Some_2 row j) as [col Hcol]; [lia|].
  unfold cell_wall. rewrite picture_rows_lookup Hrow /= Hcol /=. f_equal.
  unfold char_of, char_is_wall. destruct col; [done|].
  by repeat case_bool_decide.
Qed.

Lemma print_parse :
  Maze_init (unlines (picture_rows m s g None)) = Ok m.
Proof using HG.
  set (rows := picture_rows m s g None). set (body := unlines rows).
  assert (Hlines : splitlines body = rows).
  { unfold splitlines, body. rewrite -(app_nil_r (unlines rows)).
    rewrite splitlines_unlines; [apply picture_rows_lines|].
    by rewrite app_nil_r. }
  destruct (grid_start_open _ _ _ HG) as (Hsr & Hsc & _).
  destruct (grid_goal_open _ _ _ HG) as (Hgr & Hgc & _).
  assert (HA : count chr_A body = 1%nat).
  { rewrite -(count_splitlines chr_A body eq_refl) Hlines.
    apply (picture_marker_count chr_A s); [apply picture_A|lia..]. }
  assert (HB : count chr_B body = 1%nat).
  { rewrite -(count_splitlines chr_B body eq_refl) Hlines.
    apply (picture_marker_count chr_B g); [apply picture_B|lia..]. }
  destruct (Maze_init_returns body HA HB) as [m' Hm'].
  rewrite Hm'. f_equal.
  destruct (Maze_init_Ok _ _ Hm')
    as (line0 & _ & _ & H0 & Hh & Hw & Hwalls & _).
  destruct (markers_window _ _ Hm')
    as (ia & ja & ib & jb & Ha & Hb & Hstart & Hgoal).
  rewrite Hlines in H0, Hh, Hwalls, Ha, Hb.
  destruct (grid_table _ _ _ HG) as [Hrows Hcols].
  pose proof (grid_height _ _ _ HG) as Hhpos.
  pose proof (grid_width _ _ _ HG) as Hwpos.
  assert (Hlen : length rows = length (walls m)) by apply length_imap.
  assert (Hline0 : length line0 = Z.to_nat (width m)).
  { unfold rows, picture_rows in H0. rewrite list_lookup_imap in H0.
    destruct (walls m !! 0%nat) as [row|] eqn:Hrow; [|done].
    injection H0 as <-. rewrite length_imap. rewrite Forall_forall in Hcols.
    apply Hcols. by eapply list_elem_of_lookup_2. }
  assert (Hheight : height m' = height m) by (rewrite Hh Hlen Hrows; lia).
  assert (Hwidth : width m' = width m) by (rewrite Hw Hline0; lia).
  apply picture_A in Ha. apply picture_B in Hb.
  rewrite bool_decide_true in Hstart;
    [rewrite Hwidth; rewrite -Ha /= in Hsc; lia|].
  rewrite bool_decide_true in Hgoal;
    [rewrite Hwidth; rewrite -Hb /= in Hgc; lia|].
  rewrite Ha in Hstart. rewrite Hb in Hgoal.
  assert (Hw' : walls m' = walls m).
  { rewrite Hwalls Hlen Hline0. apply list_eq. intros i.
    rewrite list_lookup_fmap.
    destruct (decide (i < length (walls m))%nat) as [Hi|Hi].
    - rewrite lookup_seq_lt //=.
      destruct (lookup_lt_is_Some_2 _ _ Hi) as [row Hrow]. rewrite Hrow.
      f_equal. apply list_eq. intros j. rewrite list_lookup_fmap.
      rewrite Forall_forall in Hcols.
      assert (length row = Z.to_nat (width m)) as Hrl
        by (apply Hcols; by eapply list_elem_of_lookup_2).
      destruct (decide (j < Z.to_nat (width m))%nat) as [Hj|Hj].
      + rewrite lookup_seq_lt //=.
        pose proof (picture_walls i j Hi Hj) as Hpw.
        rewrite Hrow /= in Hpw. by rewrite -Hpw.
      + rewrite lookup_seq_ge; [lia|]. by rewrite lookup_ge_None_2; [lia|].
    - rewrite lookup_seq_ge; [lia|]. by rewrite lookup_ge_None_2; [lia|]. }
  apply Maze_eq; [done..| |].
  - by rewrite Hstart (grid_start _ _ _ HG).
  - by rewrite Hgoal (grid_goal _ _ _ HG).
Qed.

End round_trip.

(** X18. Printing and reading back: for a grid without a recorded
    solution, the text [print] writes between its first and its last
    newline is a maze description from which the constructor builds the
    same maze again. *)
Theorem print_then_init (m : Maze) (s g : cell) :
  Grid m s g →
  ∃ body,
    Maze_print m None = (chr_newline :: body ++ [chr_newline], None) ∧
    Maze_init body = Ok m.
Proof.
  intros HG. exists (unlines (picture_rows m s g None)). split.
  - apply Maze_print_ok; [apply (grid_start _ _ _ HG)|apply (grid_goal _ _ _ HG)].
  - by apply print_parse.
Qed.

(** X19. The picture of a solved grid: [print] with the solution that
    [solve] returned writes, at every position of the window, "*"
    exactly at the cells of the path other than the goal, "A" exactly at
    the start, "B" exactly at the goal and the block exactly at the
    walls. *)
Theorem solved_picture (k : FrontierClass) (m : Maze) (s g : cell)
    (fuel : nat) (actions : list (option string)) (cells : list cell)
    (st : SearchState) :
  Grid m s g →
  solve_with k fuel m = Some (Solved (actions, cells) st) →
  ∃ out,
    Maze_print m (Some (actions, cells)) = (out, None) ∧
    ∀ i j : nat, Z.of_nat i < height m → Z.of_nat j < width m →
      ∃ ch, splitlines out !! S i ≫= (.!! j) = Some ch ∧
        (ch = chr_star ↔
         (Z.of_nat i, Z.of_nat j) ∈ cells ∧ (Z.of_nat i, Z.of_nat j) ≠ g) ∧
        (ch = chr_A ↔ (Z.of_nat i, Z.of_nat j) = s) ∧
        (ch = chr_B ↔ (Z.of_nat i, Z.of_nat j) = g) ∧
        (ch = chr_block ↔ walls m !! i ≫= (.!! j) = Some true).
Proof.
  intros HG Hrun.
  destruct (solved_cells k m s g fuel actions cells st HG Hrun) as [Hnd Hopen].
  apply NoDup_cons in Hnd as [Hs _].
  eexists. split.
  { apply Maze_print_ok; [apply (grid_start _ _ _ HG)|apply (grid_goal _ _ _ HG)]. }
  intros i j Hi Hj. rewrite splitlines_printed; [apply picture_rows_lines|].
  destruct (grid_table _ _ _ HG) as [Hrows Hcols].
  assert (Hil : (i < length (walls m))%nat) by lia.
  destruct (lookup_lt_is_Some_2 _ _ Hil) as [row Hrow].
  rewrite Forall_forall in Hcols.
  assert (length row = Z.to_nat (width m)) as Hlen
    by (apply Hcols; by eapply list_elem_of_lookup_2).
  destruct (lookup_lt_is_Some_2 row j) as [col Hcol]; [lia|].
  assert (Hwall : walls m !! i ≫= (.!! j) = Some col) by by rewrite Hrow.
  assert (Hfree : ∀ c, open_cell m c → c = (Z.of_nat i, Z.of_nat j) →
                       col = false).
  { intros c (_ & _ & Hw) ->. simpl in Hw. rewrite !Nat2Z.id in Hw. congruence. }
  pose proof (Hfree s (grid_start_open _ _ _ HG)) as Hfs.
  pose proof (Hfree g (grid_goal_open _ _ _ HG)) as Hfg.
  pose proof (grid_distinct _ _ _ HG) as Hsg.
  exists (char_of s g (Some cells) i j col). split.
  { rewrite /= lookup_app_l; [by rewrite length_imap|].
    by rewrite picture_rows_lookup Hwall. }
  rewrite Hwall. unfold char_of, on_path. destruct col.
  - split_and!; split; try done.
    + intros [Hin _]. by specialize (Hfree _ (Hopen _ Hin) eq_refl).
    + intros Heq. by specialize (Hfs (eq_sym Heq)).
    + intros Heq. by specialize (Hfg (eq_sym Heq)).
  - repeat case_bool_decide; split_and!; split; try done; try naive_solver.
Qed.

Section print_raises.
Context (m : Maze) (solution : option (list cell)).

Lemma print_cell_cases i j col :
  (∃ ch, print_cell m solution i j col = Ok ch ∧ ¬ unprintable m i j col) ∨
  (print_cell m solution i j col = Raise AttributeError ∧
   unprintable m i j col).
Proof.
  unfold print_cell, unprintable. destruct col; [left; eexists; naive_solver|].
  destruct (start m) as [s|]; simpl; [|right; naive_solver].
  case_bool_decide as Hs; [left; eexists; naive_solver|].
  destruct (goal m) as [g|]; simpl; [|right; naive_solver].
  left. case_bool_decide; [eexists; naive_solver|].
  destruct solution; [case_bool_decide|]; eexists; naive_solver.
Qed.

Lemma print_row_cases i j row out :
  (∃ out', print_row m solution i j row out = (out', None) ∧
           ∀ j' col, row !! j' = Some col → ¬ unprintable m i (j + j') col) ∨
  (∃ out', print_row m solution i j row out = (out', Some AttributeError) ∧
           ∃ j' col, row !! j' = Some col ∧ unprintable m i (j + j') col).
Proof.
  revert j out. induction row as [|col row IH]; intros j out; simpl.
  { left. exists out. split; [done|]. by intros j' col. }
  destruct (print_cell_cases i j col) as [(ch & -> & Hok)|[-> Hbad]].
  - destruct (IH (S j) (out ++ [ch])) as [(out' & -> & Hall)|(out' & -> & Hex)].
    + left. exists out'. split; [done|]. intros [|j'] col' Hj'; simpl in Hj'.
      * injection Hj' as <-. by rewrite Nat.add_0_r.
      * replace (j + S j')%nat with (S j + j')%nat by lia. by apply Hall.
    + right. exists out'. split; [done|].
      destruct Hex as (j' & col' & Hj' & Hbad). exists (S j'), col'.
      split; [done|]. by replace (j + S j')%nat with (S j + j')%nat by lia.
  - right. exists out. split; [done|]. exists O, col.
    split; [done|]. by rewrite Nat.add_0_r.
Qed.

Lemma print_rows_cases i rows out :
  (∃ out', print_rows m solution i rows out = (out', None) ∧
           ∀ i' row j col, rows !! i' = Some row → row !! j = Some col →
                           ¬ unprintable m (i + i') j col) ∨
  (∃ out', print_rows m solution i rows out = (out', Some AttributeError) ∧
           ∃ i' row j col, rows !! i' = Some row ∧ row !! j = Some col ∧
                           unprintable m (i + i') j col).
Proof.
  revert i out. induction rows as [|row rows IH]; intros i out; simpl.
  { left. exists out. split; [done|]. by intros i' row j col. }
  destruct (print_row_cases i 0 row out) as [(o1 & -> & Hall)|(o1 & -> & Hex)].
  - destruct (IH (S i) (o1 ++ [chr_newline]))
      as [(out' & -> & Hall')|(out' & -> & Hex')].
    + left. exists out'. split; [done|].
      intros [|i'] row' j col Hi' Hj; simpl in Hi'.
      * injection Hi' as <-. rewrite Nat.add_0_r. by apply (Hall j).
      * replace (i + S i')%nat with (S i + i')%nat by lia. by eapply Hall'.
    + right. exists out'. split; [done|].
      destruct Hex' as (i' & row' & j & col & Hi' & Hj & Hbad).
      exists (S i'), row', j, col. split_and!; [done..|].
      by replace (i + S i')%nat with (S i + i')%nat by lia.
  - right. exists o1. split; [done|].
    destruct Hex as (j & col & Hj & Hbad). exists O, row, j, col.
    split_and!; [done..|]. by rewrite Nat.add_0_r.
Qed.

End print_raises.

(** X20. [print] raises exactly when the table holds an open entry whose
    tests read an attribute the constructor never assigned: any open
    entry when there is no start, or an open entry other than the start
    when there is no goal. The exception is then [AttributeError], and a
    table of walls only is printed whatever the attributes. *)
Theorem print_raises_iff (m : Maze) (sol : option Solution) :
  ((∃ out e, Maze_print m sol = (out, Some e)) ↔
   ∃ i j : nat,
     walls m !! i ≫= (.!! j) = Some false ∧
     (start m = None ∨
      (start m ≠ Some (Z.of_nat i, Z.of_nat j) ∧ goal m = None))) ∧
  (∀ out e, Maze_print m sol = (out, Some e) → e = AttributeError).
Proof.
  unfold Maze_print.
  set (solution := match sol with Some s => Some s.2 | None => None end).
  destruct (print_rows_cases m solution 0 (walls m) [chr_newline])
    as [(out' & -> & Hall)|(out' & -> & Hex)].
  - split; [split|done].
    + by intros (? & ? & ?).
    + intros (i & j & Hw & Hbad). exfalso.
      destruct (walls m !! i) as [row|] eqn:Hrow; [|done]. simpl in Hw.
      by apply (Hall i row j false).
  - split; [split|by intros ? ? [= _ <-]].
    + intros _. destruct Hex as (i & row & j & col & Hi & Hj & -> & Hbad).
      exists i, j. by rewrite Hi.
    + intros _. by eexists _, _.
Qed.

(** ** output_image *)

Section positions_facts.




End positions_facts.

Section image_facts.
Context (m : Maze) (solution : option (list cell))
  (explored : option (gset cell)) (show_solution show_explored : bool).





(** The loops return when no test reads an unassigned attribute. *)
Lemma fill_of_returns s g i j col :
  start m = Some s → goal m = Some g →
  solution = None ∨ show_explored = false ∨ is_Some explored →
  ∃ c, fill_of m solution explored show_solution show_explored i j col
       = Ok c.
Proof.
  intros Hs Hg Hex. unfold fill_of. rewrite Hs Hg /=.
  destruct col; [by eexists|]. do 2 (case_bool_decide; [by eexists|]).
  destruct solution as [cells|]; [|by eexists].
  destruct (show_solution && _); [by eexists|].
  destruct show_explored; [|by eexists].
  destruct Hex as [|[|[ex ->]]]; [done..|]. case_bool_decide; by eexists.
Qed.

Lemma image_row_returns s g i j row acc :
  start m = Some s → goal m = Some g →
  solution = None ∨ show_explored = false ∨ is_Some explored →
  ∃ rs, image_row m solution explored show_solution show_explored
          i j row acc = Ok rs.
Proof.
  intros Hs Hg Hex. revert j acc.
  induction row as [|col row IH]; intros j acc; simpl; [by eexists|].
  destruct (fill_of_returns s g i j col Hs Hg Hex) as [c ->]. apply IH.
Qed.

Lemma image_rows_returns s g i rows acc :
  start m = Some s → goal m = Some g →
  solution = None ∨ show_explored = false ∨ is_Some explored →
  ∃ rs, image_rows m solution explored show_solution show_explored
          i rows acc = Ok rs.
Proof.
  intros Hs Hg Hex. revert i acc.
  induction rows as [|row rows IH]; intros i acc; simpl; [by eexists|].
  destruct (image_row_returns s g i 0 row acc Hs Hg Hex) as [acc' ->].
  apply IH.
Qed.

End image_facts.






(** ** The script *)

Lemma grid_run (k : FrontierClass) (m : Maze) (s g : cell) :
  Grid m s g →
  ∃ r, (∀ fuel, (enough m ≤ fuel)%nat → solve_with k fuel m = Some r) ∧
    ((∃ sol st, r = Solved sol st ∧ reachable m s g) ∨
     (∃ st, r = Failed NoSolution st ∧ ¬ reachable m s g)).
Proof.
  intros (Hs & Hg & Ht)%Grid_ends.
  destruct (run_ends k m s g Hs Hg Ht) as (r & n & st & Hrun & _ & Hinv & Hr).
  exists r. split; [done|]. destruct r as [sol st'|e st'].
  - left. exists sol, st'. split; [done|].
    destruct (returned_node k m s g Hg st sol st' Hinv Hr)
      as (node & _ & _ & <- & Hlink & _).
    by eapply linked_reachable.
  - right. destruct Hr as (-> & -> & Hfr). exists st. split; [done|].
    intros Hreach. apply (inv_goal _ _ _ _ Hinv).
    by apply (exhausted_explored m s g st g Hinv Hfr).
Qed.

(** X24. Called with one file name whose text describes a grid with a
    path from start to goal, the script reaches its last line: it prints
    "Maze:", the picture without a solution, "Solving...", the line
    "States Explored: n" with the counter in decimal, "Solution:" and
    the picture with the solution, and it saves the image. *)
Theorem script_on_solvable_grid (prog file : string)
    (read : string → option str) (contents : str) (m : Maze) (s g : cell) :
  read file = Some contents → Maze_init contents = Ok m →
  start m = Some s → goal m = Some g → reachable m s g →
  ∃ ses p1 p2 sol st d,
    (∀ fuel, (enough m ≤ fuel)%nat →
       script [prog; file] read fuel = Some ses ∧
       solve fuel m = Some (Solved sol st)) ∧
    ended ses = Finished ∧ image ses = Some d ∧
    Maze_print m None = (p1, None) ∧
    Maze_print m (Some sol) = (p2, None) ∧
    output_image m (Some sol) (Some (explored st)) "maze.png" true true
    = Ok d ∧
    stdout ses
    = println "Maze:" ++ p1 ++ println "Solving..."
        ++ str_of "States Explored:" ++ [chr_space]
        ++ println (pretty (num_explored st))
        ++ println "Solution:" ++ p2.
Proof.
  intros Hread Hm Hs Hg Hreach.
  pose proof (Maze_init_Grid _ _ _ _ Hm Hs Hg) as HG.
  destruct (grid_run StackFrontier m s g HG)
    as (r & Hrun & [(sol & st & -> & _)|(st & -> & Hnot)]); [|done].
  destruct (image_rows_returns m (Some sol.2) (Some (explored st)) true true
              s g 0 (walls m) [] Hs Hg) as [rs Hrs];
    [right; right; by eexists|].
  eexists _, _, _, sol, st, _. split_and!.
  - intros fuel Hfuel. split; [|by apply Hrun].
    unfold script. rewrite bool_decide_false; [simpl; lia|].
    change ([prog; file] !! 1%nat) with (Some file). cbv beta iota.
    rewrite Hread Hm. cbv beta iota zeta.
    rewrite (Maze_print_ok m s g None Hs Hg). cbv beta iota.
    unfold solve. rewrite (Hrun fuel Hfuel). cbv beta iota.
    rewrite (Maze_print_ok m s g (Some sol) Hs Hg). cbv beta iota.
    unfold output_image. rewrite Hrs. reflexivity.
  - done.
  - done.
  - by apply Maze_print_ok.
  - by apply Maze_print_ok.
  - unfold output_image. by rewrite Hrs.
  - cbn [stdout]. by rewrite -!app_assoc.
Qed.

(** X25. Called with one file name whose text describes a grid without a
    path from start to goal, the script prints "Maze:", the picture and
    "Solving...", and then ends with the uncaught exception "no
    solution": nothing more is printed and no image is saved. *)
Theorem script_on_unsolvable_grid (prog file : string)
    (read : string → option str) (contents : str) (m : Maze) (s g : cell) :
  read file = Some contents → Maze_init contents = Ok m →
  start m = Some s → goal m = Some g → ¬ reachable m s g →
  ∃ ses p1,
    (∀ fuel, (enough m ≤ fuel)%nat → script [prog; file] read fuel = Some ses) ∧
    ended ses = Uncaught NoSolution ∧ image ses = None ∧
    Maze_print m None = (p1, None) ∧
    stdout ses = println "Maze:" ++ p1 ++ println "Solving...".
Proof.
  intros Hread Hm Hs Hg Hnot.
  pose proof (Maze_init_Grid _ _ _ _ Hm Hs Hg) as HG.
  destruct (grid_run StackFrontier m s g HG)
    as (r & Hrun & [(sol & st & -> & Hreach)|(st & -> & _)]); [done|].
  eexists _, _. split_and!.
  - intros fuel Hfuel. unfold script.
    rewrite bool_decide_false; [simpl; lia|].
    change ([prog; file] !! 1%nat) with (Some file). cbv beta iota.
    rewrite Hread Hm. cbv beta iota zeta.
    rewrite (Maze_print_ok m s g None Hs Hg). cbv beta iota.
    unfold solve. rewrite (Hrun fuel Hfuel). reflexivity.
  - done.
  - done.
  - by apply Maze_print_ok.
  - done.
Qed.

(** Closes one way the script can end. *)
Ltac script_end :=
  intros [= <-]; cbn [stdout image ended];
  split_and!;
  [ split; done
  | by intros ?
  | first [ split; [by intros [??]|done] | split; [done|by eexists] ]
  | intros; simplify_eq;
    first [ done | exfalso; congruence | split; congruence ] ].

(** X26. Whatever the arguments and the file: the script exits with the
    usage message exactly when it is not given exactly one argument, and
    then prints nothing; an image is saved only by a run that reaches
    the last line; and an exception of the constructor ends the run
    before anything is printed. *)
Theorem script_guards (argv : list string) (read : string → option str)
    (fuel : nat) (ses : Session) :
  script argv read fuel = Some ses →
  (length argv ≠ 2%nat ↔
   ended ses = Exited "Usage: python maze.py maze.txt") ∧
  (length argv ≠ 2%nat → stdout ses = []) ∧
  (is_Some (image ses) ↔ ended ses = Finished) ∧
  (∀ file contents e,
     argv !! 1%nat = Some file → read file = Some contents →
     Maze_init contents = Raise e →
     length argv = 2%nat → ended ses = Uncaught e ∧ stdout ses = []).
Proof.
  unfold script. case_bool_decide as Hlen; [script_end|].
  destruct (argv !! 1%nat) as [file|] eqn:Hfile; [|script_end].
  destruct (read file) as [contents|] eqn:Hread; [|script_end].
  destruct (Maze_init contents) as [m|e] eqn:Hm; [|script_end].
  cbv zeta. destruct (Maze_print m None) as [p1 [e|]]; [script_end|].
  destruct (solve fuel m) as [[sol st|e st]|]; [|script_end|done].
  destruct (Maze_print m (Some sol)) as [p2 [e|]]; [script_end|].
  destruct (output_image _ _ _ _ _ _) as [d|e]; script_end.
Qed.

(** ** The further properties on the fixtures *)

Ltac fixture_decide := apply (bool_decide_unpack _); by vm_compute.

Ltac fixture_run := vm_compute; reflexivity.

Lemma remove_takes_one_witness :
  [mkNode (0, 0) None None; mkNode (0, 1) None None]
  ≡ₚ mkNode (0, 1) None None :: [mkNode (0, 0) None None].
Proof.
  destruct (remove_takes_one StackFrontier
              [mkNode (0, 0) None None; mkNode (0, 1) None None]
              [mkNode (0, 0) None None] (mkNode (0, 1) None None))
    as [H _]; [reflexivity|exact H].
Defined.

Lemma neighbors_one_step_witness :
  NoDup ([("down"%string, (1, 0)); ("right"%string, (0, 1))].*2).
Proof.
  destruct (neighbors_one_step ring (0, 0)
              [("down"%string, (1, 0)); ("right"%string, (0, 1))])
    as (_ & H & _); [fixture_run|exact H].
Defined.

Lemma reachable_symmetric_witness :
  reachable ring (0, 0) (2, 0) ↔ reachable ring (2, 0) (0, 0).
Proof.
  apply (reachable_symmetric ring (0, 0) (2, 0)).
  - split; [reflexivity|repeat constructor].
  - fixture_decide.
  - fixture_decide.
Defined.

Lemma solve_solved_iff_reachable_witness :
  (∃ sol st, ∀ fuel, (enough ring ≤ fuel)%nat →
     solve fuel ring = Some (Solved sol st)) ↔ reachable ring (0, 0) (2, 0).
Proof.
  destruct (solve_solved_iff_reachable StackFrontier ring (0, 0) (2, 0))
    as [H _]; [fixture_grid ring_text|exact H].
Defined.

Lemma solution_simple_path_witness :
  ∃ actions cells st,
    solve (enough ring) ring = Some (Solved (actions, cells) st) ∧
    NoDup ((0, 0) :: cells) ∧ ∀ c, c ∈ cells → open_cell ring c.
Proof.
  do 3 eexists. split; [fixture_run|].
  eapply (solution_simple_path StackFrontier ring (0, 0) (2, 0) (enough ring));
    [fixture_grid ring_text|fixture_run].
Defined.

Lemma solved_diagnostics_witness :
  ∃ actions cells st,
    solve (enough ring) ring = Some (Solved (actions, cells) st) ∧
    num_explored st = S (size (explored st)) ∧ (2, 0) ∉ explored st.
Proof.
  do 3 eexists. split; [fixture_run|].
  edestruct (solved_diagnostics StackFrontier ring (0, 0) (2, 0)
               (enough ring))
    as (H1 & H2 & _); [fixture_grid ring_text|fixture_run|].
  exact (conj H1 H2).
Defined.

Lemma num_explored_bounded_witness :
  ∃ r, solve (enough ring) ring = Some r ∧
       (1 ≤ num_explored (run_state r) ≤ 9)%nat.
Proof.
  eexists. split; [fixture_run|].
  eapply (num_explored_bounded StackFrontier ring (0, 0) (2, 0) (enough ring));
    [fixture_grid ring_text|fixture_run].
Defined.

Lemma queue_not_longer_than_stack_witness :
  ∃ qactions qcells qst sactions scells sst,
    solve_with QueueFrontier (enough ring) ring
    = Some (Solved (qactions, qcells) qst) ∧
    solve (enough ring) ring = Some (Solved (sactions, scells) sst) ∧
    (length qactions ≤ length sactions)%nat.
Proof.
  do 6 eexists. split; [fixture_run|]. split; [fixture_run|].
  eapply (queue_not_longer_than_stack ring (0, 0) (2, 0)
            (enough ring) (enough ring));
    [fixture_grid ring_text|fixture_run|fixture_run].
Defined.

Lemma markers_recorded_in_window_witness :
  ∃ ia ja ib jb : nat,
    splitlines clipped_text !! ia ≫= (.!! ja) = Some chr_A ∧
    splitlines clipped_text !! ib ≫= (.!! jb) = Some chr_B ∧
    start clipped = (if bool_decide (Z.of_nat ja < width clipped)
                     then Some (Z.of_nat ia, Z.of_nat ja) else None) ∧
    goal clipped = (if bool_decide (Z.of_nat jb < width clipped)
                    then Some (Z.of_nat ib, Z.of_nat jb) else None).
Proof. apply (markers_recorded_in_window clipped_text clipped). fixture_run. Defined.

Lemma constructed_table_witness :
  table clipped ∧ ∀ st, ∃ ns, neighbors clipped st = Ok ns.
Proof.
  destruct (constructed_table clipped_text clipped) as (_ & _ & _ & H1 & H2);
    [fixture_run|exact (conj H1 H2)].
Defined.

Lemma walls_from_text_witness :
  ∃ b, walls ring !! 1%nat ≫= (.!! 1%nat) = Some b ∧
    (b = true ↔
     ∃ ch, splitlines ring_text !! 1%nat ≫= (.!! 1%nat) = Some ch ∧
           ch ≠ chr_A ∧ ch ≠ chr_B ∧ ch ≠ chr_space).
Proof.
  apply (walls_from_text ring_text ring 1 1); [fixture_run|reflexivity..].
Defined.

Lemma constructed_grid_witness : Grid ring (0, 0) (2, 0).
Proof.
  apply (constructed_grid ring_text ring (0, 0) (2, 0));
    [fixture_run|reflexivity..].
Defined.

Lemma marker_outside_window_witness :
  ∃ st, solve 1 clipped = Some (Failed AttributeError st).
Proof.
  apply (marker_outside_window clipped_text clipped 1 2
           (str_of "A B") chr_B StackFrontier 0);
    [fixture_run|fixture_run|fixture_run|by right|].
  vm_compute. discriminate.
Defined.

Lemma print_lines_witness :
  ∃ out, Maze_print ring None = (out, None) ∧
         length (splitlines out) = 5%nat.
Proof.
  destruct (print_lines ring (0, 0) (2, 0) None) as (out & H1 & H2 & _);
    [reflexivity..|].
  exists out. exact (conj H1 H2).
Defined.

Lemma print_then_init_witness :
  ∃ body,
    Maze_print ring None = (chr_newline :: body ++ [chr_newline], None) ∧
    Maze_init body = Ok ring.
Proof. apply (print_then_init ring (0, 0) (2, 0)). fixture_grid ring_text. Defined.

Lemma solved_picture_witness :
  ∃ actions cells st out,
    solve (enough ring) ring = Some (Solved (actions, cells) st) ∧
    Maze_print ring (Some (actions, cells)) = (out, None).
Proof.
  do 3 eexists.
  edestruct (solved_picture StackFrontier ring (0, 0) (2, 0) (enough ring))
    as (out & H & _);
    [fixture_grid ring_text|fixture_run|].
  exists out. split; [fixture_run|exact H].
Defined.




Lemma script_on_solvable_grid_witness :
  ∃ ses,
    script ["maze.py"; "maze.txt"]%string (λ _, Some ring_text) (enough ring)
    = Some ses ∧ ended ses = Finished.
Proof.
  destruct (script_on_solvable_grid "maze.py" "maze.txt"
              (λ _, Some ring_text) ring_text ring (0, 0) (2, 0))
    as (ses & p1 & p2 & sol & st & d & Hrun & Hend & _).
  - reflexivity.
  - fixture_run.
  - reflexivity.
  - reflexivity.
  - exists [(1, 0); (2, 0)]. split; [|reflexivity].
    repeat split; exists "down"%string; fixture_move.
  - exists ses. split; [apply (Hrun (enough ring)); lia|exact Hend].
Defined.

Lemma script_on_unsolvable_grid_witness :
  ∃ ses,
    script ["maze.py"; "maze.txt"]%string (λ _, Some blocked_text)
      (enough blocked) = Some ses ∧
    ended ses = Uncaught NoSolution ∧ image ses = None.
Proof.
  destruct (script_on_unsolvable_grid "maze.py" "maze.txt"
              (λ _, Some blocked_text) blocked_text blocked (0, 0) (0, 2))
    as (ses & p1 & Hrun & Hend & Himg & _).
  - reflexivity.
  - fixture_run.
  - reflexivity.
  - reflexivity.
  - intros (cells & Hw & Hend). destruct cells as [|c cells].
    + vm_compute in Hend. discriminate.
    + destruct Hw as [[act (ns & Hns & Hin)] _].
      vm_compute in Hns. injection Hns as <-. inversion Hin.
  - exists ses. split; [apply (Hrun (enough blocked)); lia|].
    exact (conj Hend Himg).
Defined.

Lemma script_guards_witness :
  is_Some (image {| stdout := []; image := None;
                    ended := Exited "Usage: python maze.py maze.txt" |}) ↔
  Exited "Usage: python maze.py maze.txt" = Finished.
Proof.
  destruct (script_guards ["maze.py"%string] (λ _, None) 0
              {| stdout := []; image := None;
                 ended := Exited "Usage: python maze.py maze.txt" |})
    as (_ & _ & H & _); [reflexivity|exact H].
Defined.
